(** * divio-cli: the command layer and the application-template client

    A shallow embedding of [divio_cli/app_template.py] and of the commands
    of [divio_cli/cli.py]: the database and media synchronisation commands
    with the properties their specification states, and the root group,
    [login], [app list], [app environment-variables], [app setup], the
    addon and boilerplate commands and [doctor] with the properties their
    code shows.

    Layout: Part I holds the definitions (one module per source file,
    followed by the synchronisation components that live in [localdev] and
    by one module per further command), Part II the theorems. *)

From Stdlib Require Import ZArith Ascii String List Lia DecimalString Sorted.
From Stdlib.Strings Require Import Byte.
From stdpp Require Import base option list strings gmap fin_maps.

Local Open Scope string_scope.
Local Open Scope list_scope.

(* ===================================================================== *)
(** * Part I. Definitions                                                  *)
(* ===================================================================== *)

(** ** Python results

    A call either returns a value or raises; [inl] carries the exception. *)

Definition result (E A : Type) : Type := (E + A)%type.

Definition Returned {E A} (a : A) : result E A := inr a.
Definition Raised {E A} (e : E) : result E A := inl e.

(** ** Effectful code

    A piece of code threads the state [St] of everything outside the
    process and the events [Ev] it has produced so far, and ends by
    returning or raising, if it ends ([None]: it does not come back). *)

Definition Prog (St Ev Exn A : Type) : Type :=
  St -> list Ev -> option (St * list Ev * result Exn A).

Section Prog.
Context {St Ev Exn : Type}.

Definition ret {A} (a : A) : Prog St Ev Exn A :=
  fun s tr => Some (s, tr, Returned a).

Definition raise {A} (e : Exn) : Prog St Ev Exn A :=
  fun s tr => Some (s, tr, Raised e).

Definition bind {A B} (m : Prog St Ev Exn A) (k : A -> Prog St Ev Exn B)
    : Prog St Ev Exn B :=
  fun s tr =>
    match m s tr with
    | None => None
    | Some (s', tr', inl e) => Some (s', tr', Raised e)
    | Some (s', tr', inr a) => k a s' tr'
    end.

(** A collaborator that only reads the state. *)
Definition ask {A} (f : St -> result Exn A) : Prog St Ev Exn A :=
  fun s tr => Some (s, tr, f s).

Definition emit (ev : Ev) : Prog St Ev Exn unit :=
  fun s tr => Some (s, tr ++ [ev], Returned tt).

(** [try: body finally: release]: the release runs whether the body
    returned or raised, and the body's outcome stands. *)
Definition finally {A} (body : Prog St Ev Exn A) (release : Prog St Ev Exn unit)
    : Prog St Ev Exn A :=
  fun s tr =>
    match body s tr with
    | None => None
    | Some (s', tr', r) =>
        match release s' tr' with
        | None => None
        | Some (s'', tr'', inl e) => Some (s'', tr'', Raised e)
        | Some (s'', tr'', inr _) => Some (s'', tr'', r)
        end
    end.

(** [try: body except: handler; raise]: the handler runs on a failure and
    the exception goes on unchanged. *)
Definition on_failure {A} (body : Prog St Ev Exn A) (handler : Prog St Ev Exn unit)
    : Prog St Ev Exn A :=
  fun s tr =>
    match body s tr with
    | Some (s', tr', inl e) =>
        match handler s' tr' with
        | None => None
        | Some (s'', tr'', _) => Some (s'', tr'', Raised e)
        end
    | other => other
    end.

Definition modify (f : St -> St) : Prog St Ev Exn unit :=
  fun s tr => Some (f s, tr, Returned tt).

(** An operation on the state that returns or raises. *)
Definition state_op {A} (f : St -> St * result Exn A) : Prog St Ev Exn A :=
  fun s tr => let '(s', r) := f s in Some (s', tr, r).

(** A body keeps a property of the state, and a body always comes back. *)
Definition preserves {A} (I : St -> Prop) (m : Prog St Ev Exn A) : Prop :=
  forall s tr s' tr' r, m s tr = Some (s', tr', r) -> I s -> I s'.

Definition comes_back {A} (m : Prog St Ev Exn A) : Prop :=
  forall s tr, is_Some (m s tr).

(** Every exception a body raises satisfies [P]. *)
Definition raises_only {A} (P : Exn -> Prop) (m : Prog St Ev Exn A) : Prop :=
  forall s tr s' tr' e, m s tr = Some (s', tr', Raised e) -> P e.

(** Running a body from a state, with no event yet. *)
Definition run {A} (m : Prog St Ev Exn A) (s : St)
    : option (St * list Ev * result Exn A) :=
  m s [].

End Prog.

Declare Scope prog_scope.
Delimit Scope prog_scope with prog.
Notation "x <- m ;; k" := (bind m (fun x => k))
  (at level 100, m at next level, right associativity) : prog_scope.
Notation "m ;;; k" := (bind m (fun _ => k))
  (at level 100, right associativity) : prog_scope.

(** ** [divio_cli/app_template.py] *)

Module AppTemplate.

(** Exceptions as [refresh] and [get] tell them apart: the clause
    [except DivioException] matches [DivioException] and its subclasses
    (of which [AppTemplate.DoesNotExistError] is one) and nothing else.
    [raise ... from original_exception] stores the original exception in
    [__cause__]. *)
Inductive exn : Type :=
| DivioException (cls : string) (args : list string)
| DoesNotExistError (msg : string) (cause : exn)
| OtherException (cls : string) (args : list string).

Definition is_DivioException (e : exn) : bool :=
  match e with
  | DivioException _ _ => true
  | DoesNotExistError _ _ => true
  | OtherException _ _ => false
  end.

Definition cause (e : exn) : option exn :=
  match e with
  | DoesNotExistError _ c => Some c
  | _ => None
  end.

Definition message (e : exn) : list string :=
  match e with
  | DoesNotExistError m _ => [m]
  | DivioException _ a => a
  | OtherException _ a => a
  end.

Definition LIST_APP_TEMPLATES_URL_PATH : string := "/apps/v3/app-templates/".

(** ["/apps/v3/app-templates/{uuid}".format(uuid=uuid)] *)
Definition GET_APP_TEMPLATE_URL_PATH (uuid : string) : string :=
  "/apps/v3/app-templates/" +:+ uuid.

(** [f"No app temlate with UUID {uuid} found"] (spelling as in the source) *)
Definition not_found_message (uuid : string) : string :=
  "No app temlate with UUID " +:+ uuid +:+ " found".

Section WithValues.
(** The JSON values stored in a template's data are opaque here. *)
Context {V : Type}.

(** The client, as far as this file uses it: [client.get_json(path=...,
    method=...)], which returns the decoded JSON object or raises. *)
Record Client : Type := {
  get_json : string -> string -> result exn (gmap string V)
}.

Record t : Type := {
  client : Client;
  uuid : string;
  data : gmap string V
}.

(** [data or {}] *)
Definition data_or_empty (d : option (gmap string V)) : gmap string V :=
  match d with
  | None => ∅
  | Some m => m
  end.

(** [dict.update]: the keys of [new] override those of [old]. *)
Definition dict_update (old new : gmap string V) : gmap string V :=
  new ∪ old.

Definition refresh (self : t) : result exn t :=
  match get_json (client self) (GET_APP_TEMPLATE_URL_PATH (uuid self)) "GET" with
  | inr app_template_data =>
      Returned {| client := client self;
                  uuid := uuid self;
                  data := dict_update (data self) app_template_data |}
  | inl original_exception =>
      if is_DivioException original_exception
      then Raised (DoesNotExistError (not_found_message (uuid self))
                                     original_exception)
      else Raised original_exception
  end.

(** [AppTemplate.__init__] *)
Definition init (c : Client) (u : string) (d : option (gmap string V))
    (do_refresh : bool) : result exn t :=
  let self := {| client := c; uuid := u; data := data_or_empty d |} in
  if do_refresh then refresh self else Returned self.

(** [AppTemplate.get]: the request and the construction are both inside
    the [try]. *)
Definition get (c : Client) (u : string) : result exn t :=
  let attempt :=
    match get_json c (GET_APP_TEMPLATE_URL_PATH u) "GET" with
    | inr d => init c u (Some d) false
    | inl e => Raised e
    end in
  match attempt with
  | inr tpl => Returned tpl
  | inl original_exception =>
      if is_DivioException original_exception
      then Raised (DoesNotExistError (not_found_message u) original_exception)
      else Raised original_exception
  end.
End WithValues.

Arguments Client : clear implicits.
Arguments t : clear implicits.

End AppTemplate.

(** ** click, as far as [cli.py] relies on it *)

Module Click.

Inductive ParamType : Type :=
| STRING
| BOOL
| Path (must_exist : bool).

(** The [default=] keyword of a declaration; [DefaultNone] is Python's
    [None], also used when the keyword is absent. *)
Inductive Default : Type :=
| DefaultNone
| DefaultStr (s : string)
| DefaultBool (b : bool).

Inductive ParamClass : Type :=
| OptionParam
| ArgumentParam.

(** A declaration as written: [param_type] is the [type=] keyword, [None]
    when it is left out. *)
Record Param : Type := {
  param_class : ParamClass;
  param_decls : list string;
  param_default : Default;
  param_is_flag : bool;
  param_type : option ParamType
}.

(** [click.option] with its declarations, [default=], [is_flag=] and [type=] *)
Definition option_ (decls : list string) (default : Default) (is_flag : bool)
    (type : option ParamType) : Param :=
  {| param_class := OptionParam; param_decls := decls; param_default := default;
     param_is_flag := is_flag; param_type := type |}.

(** [click.argument(name, default=..., type=...)] *)
Definition argument (name : string) (default : Default)
    (type : option ParamType) : Param :=
  {| param_class := ArgumentParam; param_decls := [name]; param_default := default;
     param_is_flag := false; param_type := type |}.

(** The type a value is converted to: the one given, else the one of the
    default ([BOOL] for a flag), else [STRING]. *)
Definition value_type (p : Param) : ParamType :=
  match param_type p with
  | Some t => t
  | None =>
      match param_default p with
      | DefaultBool _ => BOOL
      | DefaultStr _ => STRING
      | DefaultNone => if param_is_flag p then BOOL else STRING
      end
  end.

(** An option is required only on request ([required=True], never used for
    the commands below); an argument is required unless it has a default
    other than [None]. *)
Definition required (p : Param) : bool :=
  match param_class p with
  | OptionParam => false
  | ArgumentParam =>
      match param_default p with
      | DefaultNone => true
      | _ => false
      end
  end.

(** A flag takes no value on the command line; every other parameter does. *)
Definition takes_value (p : Param) : bool := negb (param_is_flag p).

Fixpoint leading_dashes (s : string) : nat :=
  match s with
  | String "-" rest => S (leading_dashes rest)
  | _ => 0
  end.

Fixpoint strip_dashes (s : string) : string :=
  match s with
  | String "-" rest => strip_dashes rest
  | _ => s
  end.

Definition lower_ascii (c : ascii) : ascii :=
  let n := nat_of_ascii c in
  if (65 <=? n)%nat && (n <=? 90)%nat then ascii_of_nat (n + 32) else c.

Fixpoint map_string (f : ascii -> ascii) (s : string) : string :=
  match s with
  | EmptyString => EmptyString
  | String c rest => String (f c) (map_string f rest)
  end.

Definition dash_to_underscore (c : ascii) : ascii :=
  if Ascii.eqb c "-" then "_"%char else c.

(** Among the declarations of an option the one with the longest run of
    leading dashes names it (the first of them on a tie). *)
Fixpoint longest_prefixed (best : string) (decls : list string) : string :=
  match decls with
  | [] => best
  | d :: rest =>
      if (leading_dashes best <? leading_dashes d)%nat
      then longest_prefixed d rest
      else longest_prefixed best rest
  end.

(** The keyword under which the parsed value reaches the callback. *)
Definition param_name (p : Param) : string :=
  match param_decls p with
  | [] => EmptyString
  | d :: rest =>
      map_string lower_ascii
        (map_string dash_to_underscore
           (strip_dashes
              (match param_class p with
               | OptionParam => longest_prefixed d rest
               | ArgumentParam => d
               end)))
  end.

(** A command: the path of group names leading to it, its own name, the
    parameters its [click] decorators declare (listed top to bottom, the
    order in which [click] keeps them), and whether it is wrapped by
    [allow_remote_id_override]. *)
Record Command : Type := {
  cmd_groups : list string;
  cmd_name : string;
  cmd_params : list Param;
  cmd_remote_id_override : bool
}.

End Click.

(** ** [divio_cli/cli.py]: the database and media commands *)

Module Cli.
Import Click.

(** Constants of [localdev], [settings] and [messages] that the commands
    use; those modules are outside this development, so the constants are
    taken as given. The two warnings are the templates already applied to
    their [environment] keyword. *)
Record Settings : Type := {
  DEFAULT_SERVICE_PREFIX : string;
  DEFAULT_DUMP_FILENAME : string;
  DIVIO_DUMP_FOLDER : string;
  PUSH_DB_WARNING : string -> string;
  PUSH_MEDIA_WARNING : string -> string
}.

(** *** The declarations *)

Definition pull_db_command (st : Settings) : Command :=
  {| cmd_groups := ["app"; "pull"];
     cmd_name := "db";
     cmd_params :=
       [ option_ ["--keep-tempfile"] (DefaultBool false) true None;
         argument "environment" (DefaultStr "test") None;
         argument "prefix" (DefaultStr (DEFAULT_SERVICE_PREFIX st)) None ];
     cmd_remote_id_override := true |}.

Definition pull_media_command : Command :=
  {| cmd_groups := ["app"; "pull"];
     cmd_name := "media";
     cmd_params := [ argument "environment" (DefaultStr "test") None ];
     cmd_remote_id_override := true |}.

Definition push_db_command (st : Settings) : Command :=
  {| cmd_groups := ["app"; "push"];
     cmd_name := "db";
     cmd_params :=
       [ argument "environment" (DefaultStr "test") None;
         option_ ["-d"; "--dumpfile"] DefaultNone false (Some (Path true));
         option_ ["--noinput"] (DefaultBool false) true None;
         argument "prefix" (DefaultStr (DEFAULT_SERVICE_PREFIX st)) None ];
     cmd_remote_id_override := true |}.

Definition push_media_command (st : Settings) : Command :=
  {| cmd_groups := ["app"; "push"];
     cmd_name := "media";
     cmd_params :=
       [ argument "environment" (DefaultStr "test") None;
         option_ ["--noinput"] (DefaultBool false) true None;
         argument "prefix" (DefaultStr (DEFAULT_SERVICE_PREFIX st)) None ];
     cmd_remote_id_override := true |}.

Definition import_db_command (st : Settings) : Command :=
  {| cmd_groups := ["app"; "import"];
     cmd_name := "db";
     cmd_params :=
       [ argument "prefix" (DefaultStr (DEFAULT_SERVICE_PREFIX st)) None;
         argument "dump-path" (DefaultStr (DEFAULT_DUMP_FILENAME st)) (Some (Path true)) ];
     cmd_remote_id_override := false |}.

Definition export_db_command (st : Settings) : Command :=
  {| cmd_groups := ["app"; "export"];
     cmd_name := "db";
     cmd_params :=
       [ argument "prefix" (DefaultStr (DEFAULT_SERVICE_PREFIX st)) None ];
     cmd_remote_id_override := false |}.

(** How a parameter shows in a usage line: its declarations, whether it is
    an option or a positional argument, whether it may be left out, and
    whether it takes a value. *)
Record Usage : Type := {
  u_decls : list string;
  u_class : ParamClass;
  u_optional : bool;
  u_takes_value : bool
}.

Definition usage_of (p : Param) : Usage :=
  {| u_decls := param_decls p; u_class := param_class p;
     u_optional := negb (required p); u_takes_value := takes_value p |}.

Definition surface (c : Command) : list Usage := map usage_of (cmd_params c).

(** The words typed to reach a command. *)
Definition command_path (c : Command) : list string := cmd_groups c ++ [cmd_name c].

(** [[--flag]]: an option that may be left out and takes no value. *)
Definition optional_flag (decls : list string) : Usage :=
  {| u_decls := decls; u_class := OptionParam; u_optional := true;
     u_takes_value := false |}.

(** [[--option VALUE]]: an option that may be left out and takes a value. *)
Definition optional_value (decls : list string) : Usage :=
  {| u_decls := decls; u_class := OptionParam; u_optional := true;
     u_takes_value := true |}.

(** [[name]]: a positional argument that may be left out. *)
Definition optional_argument (name : string) : Usage :=
  {| u_decls := [name]; u_class := ArgumentParam; u_optional := true;
     u_takes_value := true |}.

(** *** [os.path.join] on two components (POSIX) *)

Definition starts_with_sep (s : string) : bool :=
  match s with
  | String "/" _ => true
  | _ => false
  end.

Fixpoint ends_with_sep (s : string) : bool :=
  match s with
  | EmptyString => false
  | String c EmptyString => Ascii.eqb c "/"
  | String _ rest => ends_with_sep rest
  end.

Definition is_empty (s : string) : bool :=
  match s with
  | EmptyString => true
  | _ => false
  end.

Definition os_path_join (a b : string) : string :=
  if starts_with_sep b then b
  else if is_empty a || ends_with_sep a then a +:+ b
  else a +:+ "/" +:+ b.

(** The prompt of the three confirmations: a newline, then the question. *)
Definition CONTINUE_PROMPT : string :=
  String (ascii_of_nat 10) "Are you sure you want to continue?".

(** *** The command bodies *)

Section Commands.
(** [St] is the state of everything outside the process (local files, the
    local database, the cloud), [Exn] the exceptions its collaborators
    raise, [RemoteId] the values [allow_remote_id_override] hands to a
    command. *)
Context {St Exn RemoteId : Type}.

(** The calls into [localdev], with their arguments ([obj.client], the same
    in every call, is left out). *)
Inductive Call : Type :=
| ImportRemoteDatabase (environment prefix : string) (remote_id : RemoteId)
    (db_type dump_path : string) (keep_tempfile : bool)
| localdev_pull_media (environment : string) (remote_id : RemoteId)
| localdev_push_db (environment : string) (remote_id : RemoteId)
    (prefix db_type : string)
| localdev_push_local_db (environment dump_filename : string)
    (website_id : RemoteId) (prefix : string)
| localdev_push_media (environment : string) (remote_id : RemoteId)
    (prefix : string)
| ImportLocalDatabase (custom_dump_path prefix db_type : string)
| localdev_export_db (prefix : string).

(** What a command does that the user or the outside can observe, in
    order. A [Confirm] event records the prompt and what came back: an
    answer, or the exception [click.confirm] raised. *)
Inductive Event : Type :=
| Secho (message fg : string)
| Confirm (prompt : string) (answer : result Exn bool)
| Invoke (c : Call).

(** The collaborators of the commands. [localdev] gives, for a call and the
    state it starts in, the state it leaves and its outcome; [None] when the
    call does not come back. *)
Record Collaborators : Type := {
  utils_get_application_home : St -> result Exn string;
  utils_get_db_type : string -> string -> St -> result Exn string;
  click_confirm : string -> St -> result Exn bool;
  localdev : Call -> St -> option (St * result Exn unit)
}.

(** A command body. *)
Definition M (A : Type) : Type := Prog St Event Exn A.

Definition secho (message fg : string) : M unit := emit (Secho message fg).

Definition confirm (env : Collaborators) (prompt : string) : M bool :=
  fun s tr =>
    let answer := click_confirm env prompt s in
    Some (s, tr ++ [Confirm prompt answer], answer).

Definition invoke (env : Collaborators) (c : Call) : M unit :=
  fun s tr =>
    match localdev env c s with
    | None => None
    | Some (s', r) => Some (s', tr ++ [Invoke c], r)
    end.

(** [not dumpfile]: [None] and the empty string are false. *)
Definition falsy (dumpfile : option string) : bool :=
  match dumpfile with
  | None => true
  | Some f => is_empty f
  end.

Local Open Scope prog_scope.

Definition pull_db (env : Collaborators) (st : Settings) (remote_id : RemoteId)
    (environment prefix : string) (keep_tempfile : bool) : M unit :=
  application_home <- ask (utils_get_application_home env) ;;
  db_type <- ask (utils_get_db_type env prefix application_home) ;;
  let dump_path := os_path_join application_home (DIVIO_DUMP_FOLDER st) in
  invoke env (ImportRemoteDatabase environment prefix remote_id db_type
                dump_path keep_tempfile).

Definition pull_media (env : Collaborators) (remote_id : RemoteId)
    (environment : string) : M unit :=
  invoke env (localdev_pull_media environment remote_id).

Definition push_db (env : Collaborators) (st : Settings) (remote_id : RemoteId)
    (prefix environment : string) (dumpfile : option string) (noinput : bool)
    : M unit :=
  application_home <- ask (utils_get_application_home env) ;;
  db_type <- ask (utils_get_db_type env prefix application_home) ;;
  if falsy dumpfile then
    if negb noinput then
      secho (PUSH_DB_WARNING st environment) "red" ;;;
      go <- confirm env CONTINUE_PROMPT ;;
      if negb go then ret tt
      else invoke env (localdev_push_db environment remote_id prefix db_type)
    else invoke env (localdev_push_db environment remote_id prefix db_type)
  else
    let dump_filename := default EmptyString dumpfile in
    if negb noinput then
      secho (PUSH_DB_WARNING st environment) "red" ;;;
      go <- confirm env CONTINUE_PROMPT ;;
      if negb go then ret tt
      else invoke env (localdev_push_local_db environment dump_filename
                         remote_id prefix)
    else invoke env (localdev_push_local_db environment dump_filename
                       remote_id prefix).

Definition push_media (env : Collaborators) (st : Settings) (remote_id : RemoteId)
    (prefix environment : string) (noinput : bool) : M unit :=
  if negb noinput then
    secho (PUSH_MEDIA_WARNING st environment) "red" ;;;
    go <- confirm env CONTINUE_PROMPT ;;
    if negb go then ret tt
    else invoke env (localdev_push_media environment remote_id prefix)
  else invoke env (localdev_push_media environment remote_id prefix).

Definition import_db (env : Collaborators) (dump_path prefix : string) : M unit :=
  application_home <- ask (utils_get_application_home env) ;;
  db_type <- ask (utils_get_db_type env prefix application_home) ;;
  invoke env (ImportLocalDatabase dump_path prefix db_type).

Definition export_db (env : Collaborators) (prefix : string) : M unit :=
  invoke env (localdev_export_db prefix).

(** The status the process ends with: a callback that returns lets [click]
    exit with 0; an exception that leaves the callback ends the process
    with status 1 ([click] turns its own exceptions and [Abort] into 1, the
    interpreter does the same for any other uncaught exception). None of
    the bodies above calls [sys.exit]. *)
Definition exit_code {A} (r : result Exn A) : Z :=
  match r with
  | inr _ => 0
  | inl _ => 1
  end%Z.

(** The calls that overwrite data: the local database on pull and import,
    the cloud database or media on push. *)
Definition destructive (c : Call) : bool :=
  match c with
  | ImportRemoteDatabase _ _ _ _ _ _ => true
  | ImportLocalDatabase _ _ _ => true
  | localdev_push_db _ _ _ _ => true
  | localdev_push_local_db _ _ _ _ => true
  | localdev_push_media _ _ _ => true
  | localdev_pull_media _ _ => false
  | localdev_export_db _ => false
  end.

Definition is_invoke (ev : Event) : bool :=
  match ev with
  | Invoke _ => true
  | _ => false
  end.

Definition is_yes (ev : Event) : bool :=
  match ev with
  | Confirm _ (inr true) => true
  | _ => false
  end.

Definition is_no (ev : Event) : bool :=
  match ev with
  | Confirm _ (inr false) => true
  | _ => false
  end.

(** The confirmation gate on a run: every destructive call comes after a
    prompt the user answered with yes, unless the bypass is set. *)
Definition gated (bypass : bool) (tr : list Event) : Prop :=
  forall before c after,
    tr = before ++ Invoke c :: after ->
    destructive c = true ->
    bypass = true \/ existsb is_yes before = true.

(** The same gate as a check that runs over the events: [confirmed] tells
    whether the bypass is set or a yes has been seen so far. *)
Fixpoint gated_from (confirmed : bool) (tr : list Event) : bool :=
  match tr with
  | [] => true
  | Invoke c :: rest =>
      (negb (destructive c) || confirmed) && gated_from confirmed rest
  | ev :: rest => gated_from (confirmed || is_yes ev) rest
  end.

(** Every exception a collaborator raises leaves the command as it was
    raised, and the command changes the state only through the [localdev]
    operation it invokes. *)
Definition transparent (env : Collaborators) (m : M unit) : Prop :=
  forall s s' tr r,
    run m s = Some (s', tr, r) ->
    (forall c, In (Invoke c) tr -> localdev env c s = Some (s', r))
    /\ (existsb is_invoke tr = false -> s' = s)
    /\ (forall e, r = Raised e ->
          utils_get_application_home env s = Raised e
          \/ (exists prefix home, utils_get_db_type env prefix home s = Raised e)
          \/ click_confirm env CONTINUE_PROMPT s = Raised e
          \/ (exists c, In (Invoke c) tr /\ localdev env c s = Some (s', Raised e))).

(** What the process status says about a finished run: 0 exactly when the
    body returned, and the outcome of the operation the body invoked decides
    which. *)
Definition exits_by_outcome (env : Collaborators) (m : M unit) : Prop :=
  forall s s' tr r,
    run m s = Some (s', tr, r) ->
    (r = Returned tt -> exit_code r = 0%Z)
    /\ (forall e, r = Raised e -> exit_code r <> 0%Z)
    /\ (forall c s1, In (Invoke c) tr ->
          localdev env c s = Some (s1, Returned tt) -> exit_code r = 0%Z)
    /\ (forall c s1 e, In (Invoke c) tr ->
          localdev env c s = Some (s1, Raised e) -> exit_code r <> 0%Z).

End Commands.

Arguments Call : clear implicits.
Arguments Event : clear implicits.
Arguments Collaborators : clear implicits.

End Cli.

(** ** The synchronisation components behind [localdev]

    [cli.py] hands the work of [pull db] to [localdev.ImportRemoteDatabase];
    the [localdev] package is outside this development. Its components are
    written down here from their specification: each definition says which
    sentences it follows. *)

Module Sync.
Import Cli.

(** Modelled from the spec: the error taxonomy of the workflow (section 7),
    whose classes [localdev] would define. [RemoteRequestError] keeps the
    response status, [JobFailedError] the server's message, [RestoreError]
    the engine's diagnostic output. [KeyboardInterrupt] is Python's own: the
    user aborting the run. *)
Inductive SyncError : Type :=
| RemoteRequestError (status : nat)
| JobFailedError (message : string)
| JobTimeoutError
| IncompleteTransferError
| CorruptArchiveError
| RestoreError (diagnostic : string)
| KeyboardInterrupt.

(** *** The file system *)

(** Modelled from the spec: the disk on which the absent workflow keeps its
    [TempWorkspace] (section 3): paths that hold a directory or a file. *)
Inductive node : Type :=
| Dir
| File (content : list byte).

Abbreviation FS := (gmap string node).

Fixpoint starts_with (p s : string) : bool :=
  match p, s with
  | EmptyString, _ => true
  | String a p', String b s' => Ascii.eqb a b && starts_with p' s'
  | String _ _, EmptyString => false
  end.

(** [p] is the directory [ws] or lies below it. *)
Definition inside (ws p : string) : bool :=
  String.eqb p ws || starts_with (os_path_join ws EmptyString) p.

Definition mkdir (p : string) (fs : FS) : FS := <[p := Dir]> fs.

Definition read_file (p : string) (fs : FS) : option (list byte) :=
  match fs !! p with
  | Some (File content) => Some content
  | _ => None
  end.

Definition write_file (p : string) (content : list byte) (fs : FS) : FS :=
  <[p := File content]> fs.

Definition append_file (p : string) (data : list byte) (fs : FS) : FS :=
  write_file p (default [] (read_file p fs) ++ data) fs.

Definition remove (p : string) (fs : FS) : FS := delete p fs.

(** Removes a directory and everything below it. *)
Definition rmtree (ws : string) (fs : FS) : FS :=
  filter (fun entry => inside ws entry.1 = false) fs.

(** *** RemoteJobPoller (section 4.1) *)

(** Modelled from the spec: the status of a [SyncJob] (section 3). *)
Inductive JobStatus : Type :=
| Pending
| Running
| Ready
| Failed
| Expired.

(** Modelled from the spec: the [SyncJob] of section 3 (the timestamps,
    which no operation reads, are left out). *)
Record SyncJob : Type := {
  job_id : string;
  job_environment : string;
  job_prefix : string;
  job_status : JobStatus;
  job_url : option string
}.

(** Modelled from the spec: one answer of the job-status endpoint of
    section 6, with the server's message, and how long the request took. *)
Record PollReply : Type := {
  reply_status : JobStatus;
  reply_url : option string;
  reply_message : string;
  reply_latency : nat
}.

(** Modelled from the spec: one download response (section 4.2): the
    content length the server declares, if any, the chunks that arrive, and
    whether the connection breaks after them. *)
Record Response : Type := {
  declared_length : option nat;
  chunks : list (list byte);
  interrupted : bool
}.

(** Modelled from the spec: the remote job API of section 6, as the absent
    workflow meets it: the status and job identifier the create-dump call
    answers with, the answer to the k-th status request, and the
    download. *)
Record Server : Type := {
  create_status : nat;
  create_job_id : string;
  poll_reply : nat -> PollReply;
  download_response : Response
}.

(** Modelled from the spec: [request_dump] of the absent poller: one creation
    call, [RemoteRequestError] on a response that is not 2xx. *)
Definition request_dump (server : Server) (environment prefix : string)
    : result SyncError SyncJob :=
  let status := create_status server in
  if (200 <=? status)%nat && (status <? 300)%nat
  then Returned {| job_id := create_job_id server;
                   job_environment := environment;
                   job_prefix := prefix;
                   job_status := Pending;
                   job_url := None |}
  else Raised (RemoteRequestError status).

(** Modelled from the spec: [poll] of the absent poller, a single status
    check; the job changes only by what the response says. *)
Definition poll (reply : PollReply) (job : SyncJob) : SyncJob :=
  {| job_id := job_id job;
     job_environment := job_environment job;
     job_prefix := job_prefix job;
     job_status := reply_status reply;
     job_url := reply_url reply |}.

Definition waiting (st : JobStatus) : bool :=
  match st with
  | Pending | Running => true
  | _ => false
  end.

(** Modelled from the spec: the loop of [wait_until_ready] of the absent
    poller, with the clock made explicit. [started] lists the times at which
    the polls so far began, [elapsed] is the time since the wait began.
    While the time elapsed does not exceed [timeout] the loop polls; [Ready]
    returns the job, [Failed] and [Expired] raise [JobFailedError] with the
    server's message, anything else sleeps [interval] and goes round again.
    [fuel] bounds the rounds; [None] means it ran out. *)
Fixpoint wait_loop (server : Server) (interval timeout : nat) (fuel : nat)
    (started : list nat) (elapsed : nat) (job : SyncJob)
    : option (result SyncError SyncJob * list nat) :=
  match fuel with
  | O => None
  | S fuel' =>
      if (timeout <? elapsed)%nat then Some (Raised JobTimeoutError, started)
      else
        let reply := poll_reply server (length started) in
        let job' := poll reply job in
        let started' := started ++ [elapsed] in
        match reply_status reply with
        | Ready => Some (Returned job', started')
        | Failed | Expired =>
            Some (Raised (JobFailedError (reply_message reply)), started')
        | Pending | Running =>
            wait_loop server interval timeout fuel' started'
              (elapsed + reply_latency reply + interval) job'
        end
  end.

Definition wait_until_ready (server : Server) (job : SyncJob)
    (interval timeout : nat) (fuel : nat)
    : option (result SyncError SyncJob * list nat) :=
  wait_loop server interval timeout fuel [] 0 job.

(** The time at which the k-th poll begins when every poll before it found
    the job still waiting: each earlier round took its request and one
    interval. *)
Fixpoint poll_time (server : Server) (interval : nat) (k : nat) : nat :=
  match k with
  | O => 0
  | S k' => poll_time server interval k'
            + reply_latency (poll_reply server k') + interval
  end.

(** The job after [k] polls: only the last answer shows. *)
Definition polled (server : Server) (k : nat) (job : SyncJob) : SyncJob :=
  match k with
  | O => job
  | S k' => poll (poll_reply server k') job
  end.

(** Every poll before the k-th found the job pending or running. *)
Definition first_settled (server : Server) (k : nat) : Prop :=
  forall i, (i < k)%nat -> waiting (reply_status (poll_reply server i)) = true.

(** *** StreamedDownloader (section 4.2) *)

(** Modelled from the spec: the [TransferHandle] of section 3. *)
Record TransferHandle : Type := {
  source : string;
  destination : string;
  expected_size : option nat;
  transferred : nat
}.

(** Modelled from the spec: the streaming of the absent downloader: the
    chunks are written one at a time to the destination and the bytes
    counted. *)
Fixpoint stream (cs : list (list byte)) (h : TransferHandle) (fs : FS)
    : FS * TransferHandle :=
  match cs with
  | [] => (fs, h)
  | c :: rest =>
      stream rest
        {| source := source h; destination := destination h;
           expected_size := expected_size h;
           transferred := transferred h + length c |}
        (append_file (destination h) c fs)
  end.

(** Fewer bytes than the server declared. *)
Definition short (h : TransferHandle) : bool :=
  match expected_size h with
  | Some n => (transferred h <? n)%nat
  | None => false
  end.

(** Modelled from the spec: [download] of the absent downloader. The
    destination is opened empty and the chunks streamed into it; when the
    connection broke or fewer bytes came than declared, the partial file is
    deleted and [IncompleteTransferError] raised. *)
Definition download (resp : Response) (url destination_path : string) (fs : FS)
    : FS * result SyncError TransferHandle :=
  let opened := write_file destination_path [] fs in
  let h0 := {| source := url; destination := destination_path;
               expected_size := declared_length resp; transferred := 0 |} in
  let '(fs1, h) := stream (chunks resp) h0 opened in
  if interrupted resp || short h
  then (remove destination_path fs1, Raised IncompleteTransferError)
  else (fs1, Returned h).

(** *** LocalArchiveHandler and DatabaseImporter (sections 4.3 and 4.4) *)

(** Modelled from the spec: the [DatabaseEngineDescriptor] of section 3;
    the restore command template is applied to the dump's path. *)
Record DatabaseEngineDescriptor : Type := {
  engine_name : string;
  restore_command : string -> string;
  file_extension : string
}.

(** Modelled from the spec: what the restore process of section 6 leaves:
    its exit status and the text captured from its standard output and
    error. *)
Record ProcessResult : Type := {
  exit_status : Z;
  output : string
}.

(** Modelled from the spec: the states of the absent workflow (section
    4.5), pull direction, with its terminal failed state. *)
Inductive WfState : Type :=
| Idle
| Requesting
| Polling
| Downloading
| Extracting
| Importing
| Done
| WorkflowFailed.

(** Modelled from the spec: the local machine, as the absent workflow
    meets it: the container format
    ([open_archive] gives the content of an archive, or nothing when it
    cannot be opened or its checksum does not match), the engine that backs
    a database type, the restore process run on a command line over the
    files present, and in which state, if any, the user interrupts. *)
Record Local : Type := {
  open_archive : list byte -> option (list byte);
  engine_of : string -> DatabaseEngineDescriptor;
  restore_process : string -> FS -> ProcessResult;
  interrupted_in : WfState -> bool
}.

Definition archive_path (workspace : string) : string :=
  os_path_join workspace "archive".

Definition extracted_path (workspace : string) : string :=
  os_path_join workspace "dump".

(** Modelled from the spec: [extract] of the absent archive handler:
    [CorruptArchiveError] when the archive cannot be opened, else the
    content is written into the workspace and its path returned. *)
Definition extract (local : Local) (archive workspace : string) (fs : FS)
    : FS * result SyncError string :=
  match read_file archive fs with
  | None => (fs, Raised CorruptArchiveError)
  | Some packed =>
      match open_archive local packed with
      | None => (fs, Raised CorruptArchiveError)
      | Some content =>
          (write_file (extracted_path workspace) content fs,
           Returned (extracted_path workspace))
      end
  end.

(** Modelled from the spec: [import_dump] of the absent importer: the
    engine's restore command is run on the dump; a non-zero exit raises
    [RestoreError] with the captured output. *)
Definition import_dump (local : Local) (extracted : string)
    (engine : DatabaseEngineDescriptor) (fs : FS) : result SyncError unit :=
  let r := restore_process local (restore_command engine extracted) fs in
  if (exit_status r =? 0)%Z then Returned tt
  else Raised (RestoreError (output r)).

(** Where a [RestoreError] can come from: a restore process that exited
    with a non-zero status, whose output it carries. *)
Definition from_restore (local : Local) (e : SyncError) : Prop :=
  forall d, e = RestoreError d ->
    exists command files,
      d = output (restore_process local command files)
      /\ exit_status (restore_process local command files) <> 0%Z.

(** *** SyncWorkflow (section 4.5), pull direction *)

(** What [pull_db] passes to [ImportRemoteDatabase] (the workspace is the
    dump path), and the polling interval and timeout in force. *)
Record Config : Type := {
  cfg_environment : string;
  cfg_prefix : string;
  cfg_db_type : string;
  cfg_dump_path : string;
  cfg_keep_tempfile : bool;
  cfg_interval : nat;
  cfg_timeout : nat
}.

Abbreviation Workflow := (Prog FS WfState SyncError).

Local Open Scope prog_scope.

(** Entering a state: the state is recorded; the user may interrupt there. *)
Definition enter (local : Local) (st : WfState) : Workflow unit :=
  emit st ;;;
  if interrupted_in local st then raise KeyboardInterrupt else ret tt.

Definition await (server : Server) (job : SyncJob) (interval timeout fuel : nat)
    : Workflow SyncJob :=
  fun fs tr =>
    match wait_until_ready server job interval timeout fuel with
    | None => None
    | Some (r, _) => Some (fs, tr, r)
    end.

(** Modelled from the spec: the stages of the absent workflow in their
    order, each passing a path or a job forward. *)
Definition pull_stages (cfg : Config) (server : Server) (local : Local)
    (fuel : nat) : Workflow unit :=
  let workspace := cfg_dump_path cfg in
  enter local Requesting ;;;
  job <- ask (fun _ => request_dump server (cfg_environment cfg) (cfg_prefix cfg)) ;;
  enter local Polling ;;;
  job <- await server job (cfg_interval cfg) (cfg_timeout cfg) fuel ;;
  enter local Downloading ;;;
  handle <- state_op (download (download_response server)
                        (default EmptyString (job_url job))
                        (archive_path workspace)) ;;
  enter local Extracting ;;;
  dump <- state_op (extract local (destination handle) workspace) ;;
  enter local Importing ;;;
  ask (import_dump local dump (engine_of local (cfg_db_type cfg))) ;;;
  emit Done.

(** Modelled from the spec: the release of the [TempWorkspace] by the
    absent workflow, unless it is to be kept. *)
Definition release (cfg : Config) : Workflow unit :=
  if cfg_keep_tempfile cfg then ret tt
  else modify (rmtree (cfg_dump_path cfg)).

(** Modelled from the spec: calling the absent [ImportRemoteDatabase]. The
    workspace is created, the stages run; a failure moves the workflow to
    its failed state and goes on unchanged; the workspace is released on
    every way out. *)
Definition ImportRemoteDatabase_call (cfg : Config) (server : Server)
    (local : Local) (fuel : nat) : Workflow unit :=
  modify (mkdir (cfg_dump_path cfg)) ;;;
  finally (on_failure (pull_stages cfg server local fuel) (emit WorkflowFailed))
          (release cfg).

(** The collaborators of the commands with [ImportRemoteDatabase] carried
    out by the workflow above; every other operation stays as [base] has
    it. *)
Definition with_workflow {RemoteId : Type}
    (base : Collaborators FS SyncError RemoteId) (server : Server)
    (local : Local) (interval timeout fuel : nat)
    : Collaborators FS SyncError RemoteId :=
  {| utils_get_application_home := utils_get_application_home base;
     utils_get_db_type := utils_get_db_type base;
     click_confirm := click_confirm base;
     localdev := fun c fs =>
       match c with
       | ImportRemoteDatabase environment prefix _ db_type dump_path keep_tempfile =>
           let cfg := {| cfg_environment := environment; cfg_prefix := prefix;
                         cfg_db_type := db_type; cfg_dump_path := dump_path;
                         cfg_keep_tempfile := keep_tempfile;
                         cfg_interval := interval; cfg_timeout := timeout |} in
           match run (ImportRemoteDatabase_call cfg server local fuel) fs with
           | None => None
           | Some (fs', _, r) => Some (fs', r)
           end
       | _ => localdev base c fs
       end |}.

End Sync.

(** ** A concrete setting to run the commands in *)

Module Fixtures.
Import Cli.

Definition settings : Settings :=
  {| DEFAULT_SERVICE_PREFIX := "DEFAULT";
     DEFAULT_DUMP_FILENAME := "local_db.sql";
     DIVIO_DUMP_FOLDER := ".divio/dumps";
     PUSH_DB_WARNING := fun environment =>
       "WARNING: this will overwrite the database of " +:+ environment;
     PUSH_MEDIA_WARNING := fun environment =>
       "WARNING: this will overwrite the media files of " +:+ environment |}.

Definition call_name (c : Call nat) : string :=
  match c with
  | ImportRemoteDatabase _ _ _ _ _ _ => "ImportRemoteDatabase"
  | localdev_pull_media _ _ => "pull_media"
  | localdev_push_db _ _ _ _ => "push_db"
  | localdev_push_local_db _ _ _ _ => "push_local_db"
  | localdev_push_media _ _ _ => "push_media"
  | ImportLocalDatabase _ _ _ => "ImportLocalDatabase"
  | localdev_export_db _ => "export_db"
  end.

(** The state is the log of the operations carried out; every operation
    succeeds; the user answers every prompt with [answer]. *)
Definition collaborators (answer : bool) : Collaborators (list string) string nat :=
  {| utils_get_application_home := fun _ => Returned "/home/dev/app";
     utils_get_db_type := fun _ _ _ => Returned "fsm-postgres";
     click_confirm := fun _ _ => Returned answer;
     localdev := fun c log => Some (log ++ [call_name c], Returned tt) |}.

(** As above, but every [localdev] operation raises. *)
Definition failing (answer : bool) (e : string) : Collaborators (list string) string nat :=
  {| utils_get_application_home := fun _ => Returned "/home/dev/app";
     utils_get_db_type := fun _ _ _ => Returned "fsm-postgres";
     click_confirm := fun _ _ => Returned answer;
     localdev := fun c log => Some (log, Raised e) |}.

(** A cloud whose job is pending twice and then ready, and whose download
    delivers the four bytes it declares. *)
Definition reply (st : Sync.JobStatus) : Sync.PollReply :=
  {| Sync.reply_status := st;
     Sync.reply_url := match st with
                       | Sync.Ready => Some "https://cloud/dump/1"
                       | _ => None
                       end;
     Sync.reply_message := "dump failed on the server";
     Sync.reply_latency := 1 |}.

Definition server : Sync.Server :=
  {| Sync.create_status := 201;
     Sync.create_job_id := "job-1";
     Sync.poll_reply := fun k => if (k <? 2)%nat then reply Sync.Pending
                                 else reply Sync.Ready;
     Sync.download_response :=
       {| Sync.declared_length := Some 4;
          Sync.chunks := [[x01; x02]; [x03; x04]];
          Sync.interrupted := false |} |}.

(** The same cloud, but the download stops after two of the four bytes. *)
Definition short_server : Sync.Server :=
  {| Sync.create_status := 201;
     Sync.create_job_id := "job-1";
     Sync.poll_reply := Sync.poll_reply server;
     Sync.download_response :=
       {| Sync.declared_length := Some 4;
          Sync.chunks := [[x01; x02]];
          Sync.interrupted := false |} |}.

Definition engine : Sync.DatabaseEngineDescriptor :=
  {| Sync.engine_name := "postgres";
     Sync.restore_command := fun dump => "pg_restore " +:+ dump;
     Sync.file_extension := ".sql" |}.

(** A machine whose archives hold their content as it is, whose restore
    exits with [code] and writes "constraint violation", and whose user
    interrupts in the states [stop] names. *)
Definition machine (code : Z) (stop : Sync.WfState -> bool) : Sync.Local :=
  {| Sync.open_archive := fun packed => Some packed;
     Sync.engine_of := fun _ => engine;
     Sync.restore_process := fun _ _ =>
       {| Sync.exit_status := code; Sync.output := "constraint violation" |};
     Sync.interrupted_in := stop |}.

Definition never (st : Sync.WfState) : bool := false.

Definition while_extracting (st : Sync.WfState) : bool :=
  match st with
  | Sync.Extracting => true
  | _ => false
  end.

Definition config (keep : bool) : Sync.Config :=
  {| Sync.cfg_environment := "test";
     Sync.cfg_prefix := "DEFAULT";
     Sync.cfg_db_type := "fsm-postgres";
     Sync.cfg_dump_path := "/home/dev/app/.divio/dumps";
     Sync.cfg_keep_tempfile := keep;
     Sync.cfg_interval := 5;
     Sync.cfg_timeout := 60 |}.

(** The collaborators of the commands over the file system, before the
    workflow is put in. *)
Definition base : Collaborators (gmap string Sync.node) Sync.SyncError nat :=
  {| utils_get_application_home := fun _ => Returned "/home/dev/app";
     utils_get_db_type := fun _ _ _ => Returned "fsm-postgres";
     click_confirm := fun _ _ => Returned false;
     localdev := fun _ fs => Some (fs, Returned tt) |}.

(** What a run leaves, with the file system listed. *)
Definition listing {Ev A} (o : option (gmap string Sync.node * list Ev * A))
    : option (list (string * Sync.node) * list Ev * A) :=
  match o with
  | None => None
  | Some (fs, tr, r) => Some (map_to_list fs, tr, r)
  end.

End Fixtures.

(** ** Commands that end the process themselves *)

Module Process.

Section Process.
(** [St] is the state outside the process, [Ev] what a command shows and
    does, [E] the exceptions of its collaborators. *)
Context {St Ev E : Type}.

(** What leaves a command: [sys.exit(code)], or a collaborator's
    exception. *)
Inductive Exc : Type :=
| SystemExit (code : Z)
| Raise (e : E).

Definition lift {A} (r : result E A) : result Exc A :=
  match r with
  | inl e => Raised (Raise e)
  | inr a => Returned a
  end.

(** A collaborator that reads the state and returns or raises. *)
Definition call {A} (f : St -> result E A) : Prog St Ev Exc A :=
  fun s tr => Some (s, tr, lift (f s)).

(** A collaborator that may change the state. *)
Definition update {A} (f : St -> St * result E A) : Prog St Ev Exc A :=
  fun s tr => let '(s', r) := f s in Some (s', tr, lift r).

Definition sys_exit {A} (code : Z) : Prog St Ev Exc A := raise (SystemExit code).

(** The status the process ends with: the code of the exit, 0 when the
    command returns, 1 when another exception leaves it. *)
Definition exit_status {A} (r : result Exc A) : Z :=
  match r with
  | inr _ => 0
  | inl (SystemExit code) => code
  | inl (Raise _) => 1
  end%Z.

End Process.

Arguments Exc : clear implicits.

End Process.

(** ** [divio_cli/cli.py]: [login] and its token helper *)

Module Login.
Import Cli Process.

(** The character a terminal produces for a paste shortcut it does not
    handle, written ["\x16"] in the source. *)
Definition CTRL_V : ascii := ascii_of_nat 22.

Definition NEWLINE : ascii := ascii_of_nat 10.

(** [set(value)]: the characters that occur in the value. *)
Definition char_set (value : string) : gset ascii :=
  list_to_set (list_ascii_of_string value).

(** The empty string joining a set: its members one after another, in the
    order the set yields them. *)
Definition join_chars (cs : gset ascii) : string :=
  string_of_list_ascii (elements cs).

(** The test of the helper: the joined set of characters equals ["\x16"]. *)
Definition paste_malfunction (value : string) : bool :=
  String.eqb (join_chars (char_set value)) (String CTRL_V EmptyString).

Definition BROWSER_MESSAGE (url : string) : string :=
  "Your browser has been opened to visit: " +:+ url.

Definition TOKEN_PROMPT : string :=
  "Please copy the access token and paste it here. (your input is not displayed)".

Definition PASTE_WARNING : string :=
  String NEWLINE
    ("The access token provided indicates a copy/paste malfunction."
     +:+ String NEWLINE
       "Read more here: https://r.divio.com/divio-login-windows-users.").

(** What the command shows and does at the terminal. *)
Inductive Event : Type :=
| Secho (message : string) (fg : option string)
| Echo (message : string)
| LaunchUrl (url : string)
| Prompt (text : string) (hide_input : bool).

Section Login.
(** [St] is the state outside the process, [E] the exceptions of the
    collaborators. *)
Context {St E : Type}.

(** The client and the terminal: only [client.login] changes the state (it
    stores the token). *)
Record Env : Type := {
  get_access_token_url : St -> result E string;
  launch_url : string -> St -> result E unit;
  click_prompt : string -> bool -> St -> result E string;
  check_login_status : St -> result E (bool * string);
  client_login : string -> St -> St * result E string
}.

Definition P (A : Type) : Type := Prog St Event (Exc E) A.

Local Open Scope prog_scope.

Definition login_token_helper (env : Env) (value : option string) : P string :=
  value <- (if falsy value then
              url <- call (get_access_token_url env) ;;
              emit (Secho (BROWSER_MESSAGE url) None) ;;;
              emit (LaunchUrl url) ;;;
              call (launch_url env url) ;;;
              emit (Prompt TOKEN_PROMPT true) ;;;
              call (click_prompt env TOKEN_PROMPT true)
            else ret (default EmptyString value)) ;;
  (if paste_malfunction value
   then emit (Secho PASTE_WARNING (Some "yellow"))
   else ret tt) ;;;
  ret value.

Definition login (env : Env) (token : option string) (check : bool) : P unit :=
  if check then
    status <- call (check_login_status env) ;;
    emit (Echo (snd status)) ;;;
    sys_exit (if fst status then 0 else 1)%Z
  else
    token <- login_token_helper env token ;;
    msg <- update (client_login env token) ;;
    emit (Echo msg) ;;;
    sys_exit 0%Z.

Definition is_prompt (ev : Event) : bool :=
  match ev with
  | Prompt _ _ | LaunchUrl _ => true
  | _ => false
  end.

End Login.

Arguments Env : clear implicits.

(** A client whose status check tells whether a token is stored, and a
    terminal at which [answer] is typed. *)
Definition sample_env (answer : string) : Env (list string) string :=
  {| get_access_token_url := fun _ => Returned "https://control.divio.com/token";
     launch_url := fun _ _ => Returned tt;
     click_prompt := fun _ _ _ => Returned answer;
     check_login_status := fun stored =>
       Returned (match stored with
                 | [] => (false, "You are not logged in.")
                 | _ => (true, "You are logged in.")
                 end);
     client_login := fun token stored => (stored ++ [token], Returned "Welcome.") |}.

End Login.

(** ** [divio_cli/cli.py]: the addon and boilerplate commands *)

Module Upload.

(** Exceptions as the four commands tell them apart: [DivioException] and
    its subclasses (with the arguments they were raised with), what the
    [except] clause raises instead, and everything else. *)
Inductive exn : Type :=
| DivioException (cls : string) (args : list string)
| ClickException (message : string)
| TypeError
| OtherException (cls : string) (args : list string).

(** [click.ClickException] called on the unpacked [exc.args]: the
    constructor takes exactly one argument, the message; called with none
    or with several, Python raises [TypeError] in its place. *)
Definition click_exception (args : list string) : exn :=
  match args with
  | [message] => ClickException message
  | _ => TypeError
  end.

Inductive Event : Type :=
| Echo (message : string).

Section Upload.
Context {St : Type}.

(** The validators and uploaders ([validators], [upload]: outside this
    development). The uploads talk to the Control Panel and may change the
    state. *)
Record Env : Type := {
  validate_addon : string -> St -> result exn unit;
  upload_addon : string -> St -> St * result exn string;
  validate_boilerplate : string -> St -> result exn unit;
  upload_boilerplate : string -> bool -> St -> St * result exn string;
  register_addon : string -> string -> option Z -> St -> St * result exn string
}.

Definition P (A : Type) : Type := Prog St Event exn A.

(** [try: body except exceptions.DivioException as exc: raise
    click.ClickException] on the arguments of [exc]. *)
Definition as_click_exception {A} (body : P A) : P A :=
  fun s tr =>
    match body s tr with
    | Some (s', tr', inl (DivioException _ args)) =>
        Some (s', tr', Raised (click_exception args))
    | other => other
    end.

Local Open Scope prog_scope.

(** [path] is [ctx.parent.params["path"]], the [--path] option of the
    group. *)
Definition addon_validate (env : Env) (path : string) : P unit :=
  as_click_exception (ask (validate_addon env path)) ;;;
  emit (Echo "Addon is valid!").

Definition addon_upload (env : Env) (path : string) : P unit :=
  ret_ <- as_click_exception (state_op (upload_addon env path)) ;;
  emit (Echo ret_).

Definition addon_register (env : Env) (package_name verbose_name : string)
    (organisation : option Z) : P unit :=
  ret_ <- state_op (register_addon env package_name verbose_name organisation) ;;
  emit (Echo ret_).

Definition boilerplate_validate (env : Env) (path : string) : P unit :=
  as_click_exception (ask (validate_boilerplate env path)) ;;;
  emit (Echo "Boilerplate is valid.").

Definition boilerplate_upload (env : Env) (path : string) (noinput : bool) : P unit :=
  ret_ <- as_click_exception (state_op (upload_boilerplate env path noinput)) ;;
  emit (Echo ret_).

Definition is_divio (e : exn) : bool :=
  match e with
  | DivioException _ _ => true
  | _ => false
  end.

(** How the outcome of a collaborator shows at the command's boundary. *)
Definition surfaced (e : exn) : exn :=
  match e with
  | DivioException _ args => click_exception args
  | other => other
  end.

(** A command that runs one collaborator inside the [try]: when the
    collaborator raises, the command shows nothing and raises what
    [surfaced] makes of the exception; when it returns, the command shows
    one line and returns. [outcome] gives what the collaborator does from a
    state: the state it leaves and the exception it raises, if any. *)
Definition guarded (outcome : St -> St * option exn) (m : P unit) : Prop :=
  forall s s' tr r,
    run m s = Some (s', tr, r) ->
    s' = (outcome s).1
    /\ match (outcome s).2 with
       | Some e => r = Raised (surfaced e) /\ tr = []
       | None => r = Returned tt /\ exists line, tr = [Echo line]
       end.

(** The same for a command that runs its collaborator outside any [try]. *)
Definition unguarded (outcome : St -> St * option exn) (m : P unit) : Prop :=
  forall s s' tr r,
    run m s = Some (s', tr, r) ->
    s' = (outcome s).1
    /\ match (outcome s).2 with
       | Some e => r = Raised e /\ tr = []
       | None => r = Returned tt /\ exists line, tr = [Echo line]
       end.

(** What a collaborator's outcome raises. *)
Definition raised {A} (r : result exn A) : option exn :=
  match r with
  | inl e => Some e
  | inr _ => None
  end.

End Upload.

Arguments Env : clear implicits.

(** Validators that reject any path but ["."], with the message given. *)
Definition sample_env (args : list string) : Env (list string) :=
  {| validate_addon := fun path _ =>
       if String.eqb path "." then Returned tt
       else Raised (DivioException "DivioException" args);
     upload_addon := fun path uploaded =>
       (uploaded ++ [path], Returned "ok");
     validate_boilerplate := fun path _ =>
       if String.eqb path "." then Returned tt
       else Raised (DivioException "DivioException" args);
     upload_boilerplate := fun path _ uploaded =>
       (uploaded ++ [path], Returned "ok");
     register_addon := fun package _ _ uploaded =>
       (uploaded ++ [package], Returned "registered") |}.

End Upload.

(** ** [divio_cli/cli.py]: [app setup] *)

Module Setup.
Import Process.

Definition DOCTOR_HINT : string :=
  "There was a problem while checking your system. Please run 'divio doctor'.".

Inductive Event : Type :=
| CheckRequirements (silent : bool)
| SechoErr (message fg : string)
| CreateWorkspace (slug environment path : string) (overwrite : bool)
    (zone : option string).

Section Setup.
Context {St E : Type}.

(** The system check and [localdev.create_workspace]. *)
Record Env : Type := {
  check_requirements_human : bool -> St -> result E bool;
  create_workspace :
    string -> string -> string -> bool -> option string -> St -> St * result E unit
}.

Definition P (A : Type) : Type := Prog St Event (Exc E) A.

Local Open Scope prog_scope.

(** [not skip_doctor and not check_requirements_human(...)]: the check is
    not run when [skip_doctor] is set. *)
Definition check_failed (env : Env) (skip_doctor : bool) : P bool :=
  if negb skip_doctor then
    emit (CheckRequirements true) ;;;
    ok <- call (check_requirements_human env true) ;;
    ret (negb ok)
  else ret false.

Definition application_setup (env : Env) (zone : option string)
    (slug environment path : string) (overwrite skip_doctor : bool) : P unit :=
  failed <- check_failed env skip_doctor ;;
  (if failed then
     emit (SechoErr DOCTOR_HINT "red") ;;;
     sys_exit 1%Z
   else ret tt) ;;;
  emit (CreateWorkspace slug environment path overwrite zone) ;;;
  update (create_workspace env slug environment path overwrite zone).

Definition is_create (ev : Event) : bool :=
  match ev with
  | CreateWorkspace _ _ _ _ _ => true
  | _ => false
  end.

Definition is_check (ev : Event) : bool :=
  match ev with
  | CheckRequirements _ => true
  | _ => false
  end.

End Setup.

Arguments Env : clear implicits.

(** A system whose check gives [healthy]; the state lists the workspaces
    created. *)
Definition sample_env (healthy : bool) : Env (list string) string :=
  {| check_requirements_human := fun _ _ => Returned healthy;
     create_workspace := fun slug _ _ _ _ created =>
       (created ++ [slug], Returned tt) |}.

End Setup.

(** ** [divio_cli/cli.py]: [doctor] *)

Module Doctor.
Import Process Cli.

(** [str.split] on a one-character separator. *)
Fixpoint split_on (sep : ascii) (s : string) : list string :=
  match s with
  | EmptyString => [EmptyString]
  | String c rest =>
      if Ascii.eqb c sep then EmptyString :: split_on sep rest
      else match split_on sep rest with
           | [] => [String c EmptyString]
           | piece :: pieces => String c piece :: pieces
           end
  end.

(** [sep.join(pieces)] *)
Fixpoint join_with (sep : ascii) (pieces : list string) : string :=
  match pieces with
  | [] => EmptyString
  | [piece] => piece
  | piece :: rest => piece +:+ String sep (join_with sep rest)
  end.

Fixpoint contains (c : ascii) (s : string) : bool :=
  match s with
  | EmptyString => false
  | String x rest => Ascii.eqb x c || contains c rest
  end.

(** What [checks] holds after [if checks: checks = checks.split(",")]:
    [None] when the option was not given, the empty text when it was given
    empty, the list of pieces otherwise. *)
Inductive Checks : Type :=
| NoChecks
| EmptyChecks
| CheckList (names : list string).

Definition selected (checks : option string) : Checks :=
  match checks with
  | None => NoChecks
  | Some text => if is_empty text then EmptyChecks else CheckList (split_on "," text)
  end.

(** The error of one check: [None], or a message; it counts when it is
    there and not empty. *)
Definition truthy (error : option string) : bool :=
  match error with
  | None => false
  | Some message => negb (is_empty message)
  end.

(** Storing under a key: a key already there keeps its place and takes the
    new value; a new key goes last. *)
Fixpoint dict_set (key : string) (value : option string)
    (d : list (string * option string)) : list (string * option string) :=
  match d with
  | [] => [(key, value)]
  | (k, v) :: rest =>
      if String.eqb k key then (k, value) :: rest
      else (k, v) :: dict_set key value rest
  end.

(** [{check: error for check, check_name, error in ...}] *)
Definition errors_of (found : list (string * string * option string))
    : list (string * option string) :=
  fold_left (fun d item => dict_set item.1.1 item.2 d) found [].

(** [any(errors.values())] *)
Definition any_error (errors : list (string * option string)) : bool :=
  existsb (fun entry => truthy entry.2) errors.

(** [errors[key]], when the key is there. *)
Fixpoint dict_get (key : string) (d : list (string * option string))
    : option (option string) :=
  match d with
  | [] => None
  | (k, v) :: rest => if String.eqb k key then Some v else dict_get key rest
  end.

(** [errors.keys()] *)
Definition keys (d : list (string * option string)) : list string := map fst d.

(** The error the checks reported last under a name, when they reported
    that name at all. *)
Definition last_reported (check : string)
    (found : list (string * string * option string)) : option (option string) :=
  option_map snd (find (fun item => String.eqb item.1.1 check) (rev found)).

Inductive Event : Type :=
| Echo (message : string) (nl : bool).

Section Doctor.
Context {St E : Type}.

(** [check_requirements] (all it yields), [check_requirements_human] and
    [json.dumps] on the errors. *)
Record Env : Type := {
  check_requirements : Checks -> St -> result E (list (string * string * option string));
  check_requirements_human : Checks -> St -> result E bool;
  dumps : list (string * option string) -> string
}.

Definition P (A : Type) : Type := Prog St Event (Exc E) A.

Local Open Scope prog_scope.

Definition doctor (env : Env) (machine_readable : bool) (checks : option string)
    : P unit :=
  let checks := selected checks in
  exitcode <-
    (if machine_readable then
       found <- call (check_requirements env checks) ;;
       let errors := errors_of found in
       let exitcode := if any_error errors then 1%Z else 0%Z in
       emit (Echo (dumps env errors) false) ;;;
       ret exitcode
     else
       emit (Echo "Verifying your system setup..." true) ;;;
       ok <- call (check_requirements_human env checks) ;;
       ret (if ok then 0%Z else 1%Z)) ;;
  sys_exit exitcode.

End Doctor.

Arguments Env : clear implicits.

(** A system on which the check named "docker-server" is reported twice,
    first failing and then passing, and "git" fails. *)
Definition sample_env : Env unit string :=
  {| check_requirements := fun _ _ =>
       Returned [("docker-server", "Docker server", Some "not running");
                 ("git", "Git", Some "not found");
                 ("docker-server", "Docker server", None)];
     check_requirements_human := fun _ _ => Returned true;
     dumps := fun errors => join_with "," (map fst errors) |}.

End Doctor.

(** ** [divio_cli/cli.py]: [app list] *)

Module Listing.

(** [str] of an integer and [str.lower] on ASCII text. *)
Definition str (z : Z) : string := NilZero.string_of_int (Z.to_int z).

Definition lower (s : string) : string := Click.map_string Click.lower_ascii s.

Definition LF : string := String (ascii_of_nat 10) EmptyString.

(** What [get_applications] answers, with the fields the command reads:
    of an account its ["id"], ["type"] and ["name"], of a website its
    ["id"], ["organisation_id"] (a number or null), ["owner_id"],
    ["domain"] and ["name"]. *)
Record Account : Type := {
  account_id : Z;
  account_type : string;
  account_name : string
}.

Record Website : Type := {
  website_id : Z;
  organisation_id : option Z;
  owner_id : Z;
  domain : string;
  website_name : string
}.

Record Applications : Type := {
  accounts : list Account;
  websites : list Website
}.

(** A row of the table: a tuple of texts. *)
Definition Row : Type := list string.

(** [{"name": ..., "applications": [...]}] *)
Record Group : Type := {
  name : string;
  applications : list Row
}.

(** A dictionary from account ids to groups, in insertion order. *)
Definition Dict : Type := list (Z * Group).

(** [d[key] = value]: a key already there keeps its place and takes the
    new value; a new key goes last. *)
Fixpoint set_item (key : Z) (value : Group) (d : Dict) : Dict :=
  match d with
  | [] => [(key, value)]
  | (k, v) :: rest =>
      if Z.eqb k key then (k, value) :: rest
      else (k, v) :: set_item key value rest
  end.

Fixpoint get_item (key : Z) (d : Dict) : option Group :=
  match d with
  | [] => None
  | (k, v) :: rest => if Z.eqb k key then Some v else get_item key rest
  end.

(** The two dictionary comprehensions over [api_response["accounts"]]. *)
Definition users_of (accounts : list Account) : Dict :=
  fold_left
    (fun d account =>
       if String.eqb (account_type account) "user"
       then set_item (account_id account)
              {| name := "Personal"; applications := [] |} d
       else d)
    accounts [].

Definition organisations_of (accounts : list Account) : Dict :=
  fold_left
    (fun d account =>
       if String.eqb (account_type account) "organisation"
       then set_item (account_id account)
              {| name := account_name account; applications := [] |} d
       else d)
    accounts [].

Record Groups : Type := {
  users : Dict;
  organisations : Dict
}.

Definition groups_of (accounts : list Account) : Groups :=
  {| users := users_of accounts; organisations := organisations_of accounts |}.

(** [d[key]["applications"].append(row)]; [None] stands for the
    [KeyError] of [d[key]]. *)
Fixpoint append_to (key : Z) (row : Row) (d : Dict) : option Dict :=
  match d with
  | [] => None
  | (k, data) :: rest =>
      if Z.eqb k key
      then Some ((k, {| name := name data;
                        applications := applications data ++ [row] |}) :: rest)
      else option_map (cons (k, data)) (append_to key row rest)
  end.

(** [if organisation_id:] on a number or null. *)
Definition truthy (organisation_id : option Z) : bool :=
  match organisation_id with
  | None => false
  | Some id => negb (Z.eqb id 0)
  end.

Definition row_of (website : Website) : Row :=
  [str (website_id website); domain website; website_name website].

(** One turn of the loop over the websites; the exception is the key of
    the [KeyError]. *)
Definition place (groups : Groups) (website : Website) : result Z Groups :=
  match organisation_id website with
  | Some id =>
      if truthy (Some id) then
        match append_to id (row_of website) (organisations groups) with
        | Some d => Returned {| users := users groups; organisations := d |}
        | None => Raised id
        end
      else
        match append_to (owner_id website) (row_of website) (users groups) with
        | Some d => Returned {| users := d; organisations := organisations groups |}
        | None => Raised (owner_id website)
        end
  | None =>
      match append_to (owner_id website) (row_of website) (users groups) with
      | Some d => Returned {| users := d; organisations := organisations groups |}
      | None => Raised (owner_id website)
      end
  end.

Fixpoint sort_into (groups : Groups) (websites : list Website) : result Z Groups :=
  match websites with
  | [] => Returned groups
  | website :: rest =>
      match place groups website with
      | inl key => Raised key
      | inr groups' => sort_into groups' rest
      end
  end.

(** [itertools.chain(groups["users"].items(), groups["organisations"].items())] *)
Definition chain (groups : Groups) : list (Z * Group) :=
  users groups ++ organisations groups.

(** The name a key is filed under in a dictionary, when the key is
    there, and the name of the group the loop files a website under. *)
Definition name_at (d : Dict) (key : Z) : option string :=
  option_map name (get_item key d).

Definition owner_group (groups : Groups) (website : Website) : option string :=
  if truthy (organisation_id website)
  then name_at (organisations groups) (default 0%Z (organisation_id website))
  else name_at (users groups) (owner_id website).

(** [sorted(items, key=lambda x: x[0].lower())]: a stable sort on the
    lower-cased first entry, compared as text. *)
Definition sort_key (x : Row) : string := lower (hd EmptyString x).

Fixpoint insert_row (x : Row) (sorted : list Row) : list Row :=
  match sorted with
  | [] => [x]
  | y :: rest =>
      if String.ltb (sort_key y) (sort_key x) then y :: insert_row x rest
      else x :: y :: rest
  end.

Definition sort_applications (items : list Row) : list Row :=
  fold_right insert_row [] items.

Definition HEADER : list string := ["ID"; "Slug"; "Name"; "Organisation"].

(** [s.rstrip(chars)] *)
Fixpoint rstrip (chars : string) (s : string) : string :=
  match s with
  | EmptyString => EmptyString
  | String c rest =>
      match rstrip chars rest with
      | EmptyString =>
          if existsb (Ascii.eqb c) (list_ascii_of_string chars)
          then EmptyString else String c EmptyString
      | kept => String c kept
      end
  end.

(** ["=" * len(title)] *)
Definition underline (title : string) : string :=
  string_of_list_ascii (repeat "="%char (String.length title)).

(** [each + (data["name"],) for group, data in accounts for each in
    data["applications"]] *)
Definition with_account_name (accounts : list (Z * Group)) : list Row :=
  flat_map (fun item => map (fun each => each ++ [name item.2]) (applications item.2))
    accounts.

(** What the command shows: [click.echo] and [echo_large_content], the
    latter with the [pager] of the context it is given. *)
Inductive Event : Type :=
| Echo (message : string)
| EchoLargeContent (content : string) (pager : bool).

(** [KeyError], or an exception of the client. *)
Inductive Exc (E : Type) : Type :=
| KeyError (key : Z)
| Raise (e : E).

Arguments KeyError {E} key.
Arguments Raise {E} e.

Section Listing.
(** [C] is the client inside [obj], [E] its exceptions. *)
Context {C E : Type}.

Record Obj : Type := {
  pager : bool;
  client : C
}.

(** The client, [json.dumps(..., indent=2, sort_keys=True)], [table] and
    [os.linesep]. *)
Record Env : Type := {
  get_applications : C -> result E Applications;
  dumps : Applications -> string;
  table : list Row -> list string -> string;
  linesep : string
}.

Definition P (A : Type) : Type := Prog Obj Event (Exc E) A.

Definition from_client {A} (r : result E A) : result (Exc E) A :=
  match r with
  | inl e => Raised (Raise e)
  | inr a => Returned a
  end.

Definition from_lookup {A} (r : result Z A) : result (Exc E) A :=
  match r with
  | inl key => Raised (KeyError key)
  | inr a => Returned a
  end.

(** One entry of [output_items]. *)
Definition section (env : Env) (data : Group) : string :=
  name data +:+ LF +:+ underline (name data) +:+ LF +:+ LF
  +:+ table env (sort_applications (applications data)) (firstn 3 HEADER)
  +:+ LF +:+ LF.

Definition output_items (env : Env) (accounts : list (Z * Group)) : list string :=
  flat_map
    (fun item =>
       match applications item.2 with
       | [] => []
       | _ => [section env item.2]
       end)
    accounts.

Local Open Scope prog_scope.

Definition application_list (env : Env) (grouped pager_ as_json : bool) : P unit :=
  modify (fun obj => {| pager := pager_; client := client obj |}) ;;;
  api_response <- ask (fun obj => from_client (get_applications env (client obj))) ;;
  if as_json then emit (Echo (dumps env api_response))
  else
    groups <- ask (fun _ =>
                from_lookup (sort_into (groups_of (accounts api_response))
                                       (websites api_response))) ;;
    let accounts := chain groups in
    let output :=
      if grouped
      then rstrip (linesep env) (String.concat (linesep env) (output_items env accounts))
      else table env (sort_applications (with_account_name accounts)) HEADER in
    obj <- ask (fun obj => Returned obj) ;;
    emit (EchoLargeContent output (pager obj)).

End Listing.

Arguments Obj : clear implicits.
Arguments Env : clear implicits.

(** How the response itself relates a website to an account: the account
    that owns it is listed with the right type, and the name shown for it
    is "Personal" for a user and the name of the organisation as listed
    last under that id. *)
Definition owner_listed (response : Applications) (website : Website) : bool :=
  if truthy (organisation_id website)
  then existsb
         (fun account =>
            String.eqb (account_type account) "organisation"
            && Z.eqb (account_id account) (default 0%Z (organisation_id website)))
         (accounts response)
  else existsb
         (fun account =>
            String.eqb (account_type account) "user"
            && Z.eqb (account_id account) (owner_id website))
         (accounts response).

Definition owner_name (response : Applications) (website : Website) : string :=
  if truthy (organisation_id website)
  then match find
               (fun account =>
                  String.eqb (account_type account) "organisation"
                  && Z.eqb (account_id account) (default 0%Z (organisation_id website)))
               (rev (accounts response)) with
       | Some account => account_name account
       | None => EmptyString
       end
  else "Personal".

(** The key a website is filed under. *)
Definition owner_key (website : Website) : Z :=
  if truthy (organisation_id website)
  then default 0%Z (organisation_id website)
  else owner_id website.

(** Rows in the order of the table: no row's key is below the key of the
    row before it. *)
Definition in_order (x y : Row) : Prop := String.ltb (sort_key y) (sort_key x) = false.

(** A client that answers with two accounts and three applications, two of
    them of the organisation. *)
Definition sample_response : Applications :=
  {| accounts := [ {| account_id := 7; account_type := "user"; account_name := "ada" |};
                   {| account_id := 3; account_type := "organisation";
                      account_name := "Acme" |} ];
     websites := [ {| website_id := 10; organisation_id := Some 3%Z; owner_id := 7;
                      domain := "shop"; website_name := "Shop" |};
                   {| website_id := 9; organisation_id := None; owner_id := 7;
                      domain := "blog"; website_name := "Blog" |};
                   {| website_id := 12; organisation_id := Some 3%Z; owner_id := 7;
                      domain := "docs"; website_name := "Docs" |} ] |}.

(** A response whose second application belongs to an organisation that
    is not among the accounts. *)
Definition orphan_response : Applications :=
  {| accounts := [ {| account_id := 7; account_type := "user"; account_name := "ada" |} ];
     websites := [ {| website_id := 9; organisation_id := None; owner_id := 7;
                      domain := "blog"; website_name := "Blog" |};
                   {| website_id := 10; organisation_id := Some 3%Z; owner_id := 7;
                      domain := "shop"; website_name := "Shop" |} ] |}.

Definition sample_table (rows : list Row) (header : list string) : string :=
  String.concat LF (map (String.concat " ") (header :: rows)).

Definition sample_env (response : Applications) : Env unit string :=
  {| get_applications := fun _ => Returned response;
     dumps := fun r => String.concat "," (map domain (websites r));
     table := sample_table;
     linesep := LF |}.

End Listing.

(** ** [divio_cli/cli.py]: [app environment-variables] *)

Module EnvVars.
Import Cli Listing.

(** What [get_environment_variables] answers, with the fields the command
    reads: of a block its ["environment"], ["environment_uuid"] and
    ["environment_variables"] (here [variables]) and, of a variable, its ["name"], its
    ["value"] if the response holds one (a sensitive variable comes
    without) and ["is_sensitive"]. *)
Record EnvVar : Type := {
  var_name : string;
  var_value : option string;
  is_sensitive : bool
}.

Record Block : Type := {
  environment : string;
  environment_uuid : string;
  variables : list EnvVar
}.

(** A cell of a table: a text, [None] or a boolean. *)
Inductive Cell : Type :=
| Text (s : string)
| NoValue
| Flag (b : bool).

Definition COLUMNS : list string := ["name"; "value"; "is_sensitive"].

(** [None if "value" not in environment_variable.keys() else
    environment_variable["value"]] *)
Definition value_cell (v : EnvVar) : Cell :=
  match var_value v with
  | None => NoValue
  | Some value => Text value
  end.

(** ["Environment: {} ({})".format(environment, environment_uuid)] *)
Definition content_table_title (block : Block) : string :=
  "Environment: " +:+ environment block +:+ " (" +:+ environment_uuid block +:+ ")".

(** [f"Could not find any environment variable named {get_var}."] *)
Definition not_found (get_var : string) : string :=
  "Could not find any environment variable named " +:+ get_var +:+ ".".

(** [s.lstrip(chars)] and [s.strip(chars)] *)
Fixpoint lstrip (chars : string) (s : string) : string :=
  match s with
  | EmptyString => EmptyString
  | String c rest =>
      if existsb (Ascii.eqb c) (list_ascii_of_string chars)
      then lstrip chars rest else s
  end.

Definition strip (chars : string) (s : string) : string :=
  lstrip chars (rstrip chars s).

(** The inner loop with its [break]: the first variable of the name. *)
Fixpoint first_named (get_var : string) (vars : list EnvVar) : option EnvVar :=
  match vars with
  | [] => None
  | environment_variable :: rest =>
      if String.eqb (var_name environment_variable) get_var
      then Some environment_variable
      else first_named get_var rest
  end.

(** The entry the JSON branch appends for a block. *)
Definition entry (block : Block) (environment_variable : EnvVar) : Block :=
  {| environment := environment block;
     environment_uuid := environment_uuid block;
     variables := [environment_variable] |}.

(** [content] of the JSON branch after its loop. *)
Definition selected (get_var : string) (results : list Block) : list Block :=
  fold_left
    (fun content block =>
       match first_named get_var (variables block) with
       | Some environment_variable => content ++ [entry block environment_variable]
       | None => content
       end)
    results [].

(** What [app environment-variables] shows. *)
Inductive Event : Type :=
| Secho (message : string) (fg : option string)
| EchoLargeContent (content : string) (pager : bool).

Section EnvVars.
(** [C] is the client inside [obj], [E] its exceptions, [RemoteId] the
    values [allow_remote_id_override] hands to the command. *)
Context {C E RemoteId : Type}.

(** The client, [json.dumps(..., indent=2)] and [table(..., tablefmt="grid")]. *)
Record Env : Type := {
  get_environment_variables : RemoteId -> string -> C -> result E (list Block);
  dumps : list Block -> string;
  table : list (list Cell) -> list string -> string
}.

Definition P (A : Type) : Type := Prog (Obj C) Event E A.

(** One [content_table] of the branch for a single variable, and of the
    branch for all of them. *)
Definition content_table (env : Env) (get_var : string) (block : Block)
    (environment_variable : EnvVar) : string :=
  content_table_title block +:+ LF
  +:+ table env
        [[Text get_var; value_cell environment_variable;
          Flag (is_sensitive environment_variable)]]
        COLUMNS
  +:+ LF +:+ LF +:+ LF.

Definition block_table (env : Env) (result : Block) : string :=
  content_table_title result +:+ LF
  +:+ table env
        (map (fun row => [Text (var_name row); value_cell row; Flag (is_sensitive row)])
             (variables result))
        COLUMNS
  +:+ LF +:+ LF +:+ LF.

(** [content_tables] of the table branch for a single variable after its
    loop. *)
Definition content_tables (env : Env) (get_var : string) (results : list Block)
    : string :=
  fold_left
    (fun tables block =>
       match first_named get_var (variables block) with
       | Some environment_variable =>
           tables +:+ content_table env get_var block environment_variable
       | None => tables
       end)
    results EmptyString.

(** The table of an entry of the JSON branch's [content]: what the table
    branch adds for the same block. *)
Definition entry_table (env : Env) (get_var : string) (shown : Block) : string :=
  match variables shown with
  | [environment_variable] => content_table env get_var shown environment_variable
  | _ => EmptyString
  end.

Definition all_tables (env : Env) (results : list Block) : string :=
  fold_left (fun tables result => tables +:+ block_table env result) results EmptyString.

Local Open Scope prog_scope.

Definition echo_large_content (content : string) : P unit :=
  obj <- ask (fun obj => Returned obj) ;;
  emit (EchoLargeContent content (pager obj)).

Definition environment_variables (env : Env) (remote_id : RemoteId)
    (environment_ : string) (pager_ : bool) (get_var : option string)
    (as_json : bool) : P unit :=
  let environment_ := lower environment_ in
  modify (fun obj => {| pager := pager_; client := client obj |}) ;;;
  results <- ask (fun obj =>
               get_environment_variables env remote_id environment_ (client obj)) ;;
  if as_json then
    if falsy get_var then echo_large_content (dumps env results)
    else
      let get_var := default EmptyString get_var in
      let content := selected get_var results in
      let json_content := dumps env content in
      match content with
      | [] => emit (Secho (not_found get_var) (Some "yellow"))
      | _ => echo_large_content json_content
      end
  else
    if falsy get_var then echo_large_content (strip LF (all_tables env results))
    else
      let get_var := default EmptyString get_var in
      let tables := content_tables env get_var results in
      if is_empty tables
      then emit (Secho (not_found get_var) (Some "yellow"))
      else echo_large_content (strip LF tables).

End EnvVars.

Arguments Env : clear implicits.

(** Two environments that both define [DEBUG], the second one twice and
    as a sensitive variable. *)
Definition sample_results : list Block :=
  [ {| environment := "test"; environment_uuid := "e1";
       variables :=
         [ {| var_name := "DEBUG"; var_value := Some "1"; is_sensitive := false |};
           {| var_name := "SECRET"; var_value := None; is_sensitive := true |} ] |};
    {| environment := "live"; environment_uuid := "e2";
       variables :=
         [ {| var_name := "DEBUG"; var_value := None; is_sensitive := true |};
           {| var_name := "DEBUG"; var_value := Some "0"; is_sensitive := false |} ] |} ].

Definition sample_env : Env unit string Z :=
  {| get_environment_variables := fun _ _ _ => Returned sample_results;
     dumps := fun content => String.concat "," (map environment content);
     table := fun rows _ =>
       String.concat ";"
         (map (fun row =>
                 String.concat "="
                   (map (fun cell =>
                           match cell with
                           | Text s => s
                           | NoValue => "None"
                           | Flag true => "True"
                           | Flag false => "False"
                           end) row)) rows) |}.

End EnvVars.

(** ** [divio_cli/cli.py]: the root group [cli] *)

Module Root.

Definition SUDO_NOTICE : string := "Running as sudo".

(** ["New version {} is available. Type `divio version` to show
    information about upgrading.".format(update_info["remote"])] *)
Definition update_notice (remote : string) : string :=
  "New version " +:+ remote
  +:+ " is available. Type `divio version` to show information about upgrading.".

(** What [check_for_updates] answers, as far as the group reads it. *)
Record UpdateInfo : Type := {
  update_available : bool;
  remote : string
}.

(** What the group shows and starts: [click.secho], [sentry_sdk.init] and
    the request [check_for_updates] makes. *)
Inductive Event : Type :=
| Secho (message : string) (fg : string) (err : bool)
| SentryInit (dsn : string)
| CheckForUpdates.

(** [try: sys.argv[1] == "version" except IndexError: False] *)
Definition is_version_command (argv : list string) : bool :=
  match argv !! 1%nat with
  | Some argument => String.eqb argument "version"
  | None => false
  end.

Section Root.
(** [C] is the cloud client, [E] the exceptions of the collaborators. *)
Context {C E : Type}.

(** [ctx.obj]: not set yet, the empty [Map()], or the map with its client,
    zone and pager. *)
Inductive CtxObj : Type :=
| Unset
| EmptyMap
| Ready (client : C) (zone : option string) (pager : bool).

(** The process: [ctx.obj], and whether [sys.excepthook] is the handler
    that starts the debugger. *)
Record Process : Type := {
  ctx_obj : CtxObj;
  debugger_hook : bool
}.

Record Env : Type := {
  get_endpoint : option string -> result E string;
  CloudClient : string -> bool -> bool -> result E C;
  get_sentry_dsn : C -> result E string;
  check_for_updates : C -> result E UpdateInfo
}.

Definition P (A : Type) : Type := Prog Process Event E A.

Local Open Scope prog_scope.

Definition cli (env : Env) (argv : list string)
    (debug pager : bool) (zone : option string) (sudo : bool) : P unit :=
  (if sudo then emit (Secho SUDO_NOTICE "yellow" false) else ret tt) ;;;
  modify (fun p => {| ctx_obj := EmptyMap; debugger_hook := debugger_hook p |}) ;;;
  endpoint <- ask (fun _ => get_endpoint env zone) ;;
  client <- ask (fun _ => CloudClient env endpoint debug sudo) ;;
  modify (fun p => {| ctx_obj := Ready client zone pager;
                      debugger_hook := debugger_hook p |}) ;;;
  (if debug
   then modify (fun p => {| ctx_obj := ctx_obj p; debugger_hook := true |})
   else dsn <- ask (fun _ => get_sentry_dsn env client) ;;
        emit (SentryInit dsn)) ;;;
  if is_version_command argv then ret tt
  else
    emit CheckForUpdates ;;;
    update_info <- ask (fun _ => check_for_updates env client) ;;
    if update_available update_info
    then emit (Secho (update_notice (remote update_info)) "yellow" true)
    else ret tt.

Definition is_check (ev : Event) : bool :=
  match ev with
  | CheckForUpdates => true
  | _ => false
  end.

Definition is_sentry (ev : Event) : bool :=
  match ev with
  | SentryInit _ => true
  | _ => false
  end.

End Root.

Arguments CtxObj : clear implicits.
Arguments Process : clear implicits.
Arguments Env : clear implicits.

(** A client for which version 9.9 is available. *)
Definition sample_env : Env unit string :=
  {| get_endpoint := fun _ => Returned "https://control.divio.com";
     CloudClient := fun _ _ _ => Returned tt;
     get_sentry_dsn := fun _ => Returned "dsn";
     check_for_updates := fun _ =>
       Returned {| update_available := true; remote := "9.9" |} |}.

End Root.

(* ===================================================================== *)
(** * Part II. Theorems                                                    *)
(* ===================================================================== *)

Module AppTemplateFacts.
Import AppTemplate.

Section WithValues.
Context {V : Type}.
Implicit Types (c : Client V) (self : t V) (e : exn).

Lemma refresh_ok self d :
  get_json (client self) (GET_APP_TEMPLATE_URL_PATH (uuid self)) "GET" = inr d ->
  refresh self = Returned {| client := client self; uuid := uuid self;
                             data := d ∪ data self |}.
Proof. intros H. unfold refresh. now rewrite H. Qed.

Lemma refresh_other_exception self e :
  get_json (client self) (GET_APP_TEMPLATE_URL_PATH (uuid self)) "GET" = inl e ->
  is_DivioException e = false ->
  refresh self = Raised e.
Proof. intros H He. unfold refresh. now rewrite H, He. Qed.

Lemma get_ok c u d :
  get_json c (GET_APP_TEMPLATE_URL_PATH u) "GET" = inr d ->
  get c u = Returned {| client := c; uuid := u; data := d |}.
Proof. intros H. unfold get. now rewrite H. Qed.
End WithValues.

(** C10. Whenever the client request raises a [DivioException] (any
  subclass, whatever the underlying failure was), [AppTemplate.get],
  [AppTemplate.refresh] and the constructor called with [refresh=True]
  raise [DoesNotExistError] with the message
  "No app temlate with UUID {uuid} found", chained from the original
  exception. *)
Theorem does_not_exist_on_any_divio_exception :
forall (V : Type) (c : Client V) (u : string) (e : exn),
  get_json c (GET_APP_TEMPLATE_URL_PATH u) "GET" = Raised e ->
  is_DivioException e = true ->
  let err := DoesNotExistError ("No app temlate with UUID " +:+ u +:+ " found") e in
  get c u = Raised err
  /\ (forall d, refresh {| client := c; uuid := u; data := d |} = Raised err)
  /\ (forall d, init c u d true = Raised err)
  /\ cause err = Some e
  /\ message err = ["No app temlate with UUID " +:+ u +:+ " found"].
Proof.
intros V c u e Hreq Hdivio err.
assert (Hrefresh : forall d, refresh {| client := c; uuid := u; data := d |} = Raised err).
{ intros d. unfold refresh. cbn [client uuid]. rewrite Hreq.
  unfold Raised in *. now rewrite Hdivio. }
repeat split.
- unfold get. rewrite Hreq. unfold Raised. now rewrite Hdivio.
- exact Hrefresh.
- intros d. unfold init. apply Hrefresh.
Qed.

(** The theorem at work: a client whose every request ends in an HTTP
    error, asked for the template "0a1b". *)
Lemma does_not_exist_on_http_error :
  let failure := DivioException "DivioException" ["404 Not Found"] in
  let c := {| get_json := fun _ _ => Raised failure |} : Client nat in
  get c "0a1b" =
    Raised (DoesNotExistError "No app temlate with UUID 0a1b found" failure).
Proof.
  cbv zeta.
  exact (proj1 (does_not_exist_on_any_divio_exception nat
                  {| get_json := fun _ _ =>
                       Raised (DivioException "DivioException" ["404 Not Found"]) |}
                  "0a1b" _ eq_refl eq_refl)).
Defined.

(** An exception that is no [DivioException] leaves [get], [refresh] and
    the constructor as it was raised. *)
Theorem other_exceptions_pass_through :
  forall (V : Type) (c : Client V) (u : string) (e : exn),
    get_json c (GET_APP_TEMPLATE_URL_PATH u) "GET" = Raised e ->
    is_DivioException e = false ->
    get c u = Raised e
    /\ (forall d, refresh {| client := c; uuid := u; data := d |} = Raised e)
    /\ (forall d, init c u d true = Raised e).
Proof.
  intros V c u e Hreq Hother.
  assert (Hrefresh : forall d, refresh {| client := c; uuid := u; data := d |} = Raised e).
  { intros d. now apply refresh_other_exception. }
  repeat split.
  - unfold get. rewrite Hreq. unfold Raised. now rewrite Hother.
  - exact Hrefresh.
  - intros d. unfold init. apply Hrefresh.
Qed.

Lemma other_exceptions_pass_through_on_type_error :
  let failure := OtherException "TypeError" ["not a mapping"] in
  let c := {| get_json := fun _ _ => Raised failure |} : Client nat in
  get c "0a1b" = Raised failure.
Proof.
  cbv zeta.
  exact (proj1 (other_exceptions_pass_through nat
                  {| get_json := fun _ _ =>
                       Raised (OtherException "TypeError" ["not a mapping"]) |}
                  "0a1b" _ eq_refl eq_refl)).
Defined.



End AppTemplateFacts.

Module CliFacts.
Import Click Cli.

Section Runs.
Context {St Exn RemoteId : Type}.
Implicit Types (env : Collaborators St Exn RemoteId) (st : Settings) (s : St)
  (tr : list (Event Exn RemoteId)) (c : Call RemoteId).

(** Unfolds a command body down to the collaborators' answers and splits on
    each of them. *)
Ltac unfold_body :=
  unfold run, pull_db, pull_media, push_db, push_media, import_db, export_db,
    bind, ask, secho, emit, confirm, invoke, ret, Returned, Raised in *.

Ltac split_answers :=
  repeat match goal with
  | H : context [match ?x with _ => _ end] |- _ => destruct x eqn:?; simplify_eq
  | H : context [if ?b then _ else _] |- _ => destruct b eqn:?; simplify_eq
  end.

Ltac crunch := unfold_body; split_answers; simplify_eq; simpl in *.

Ltac bools :=
  repeat match goal with
  | b : bool |- _ => destruct b; simpl in *; try discriminate
  end.

Lemma gated_from_mono tr : forall b, gated_from b tr = true -> gated_from true tr = true.
Proof.
  induction tr as [|ev tr IH]; intros b H; [done|].
  destruct ev; simpl in *; eauto.
  apply andb_true_iff in H as [_ H]. rewrite orb_true_r. simpl. eauto.
Qed.

Lemma existsb_is_yes_app tr ev :
  existsb is_yes (tr ++ [ev]) = existsb is_yes tr || is_yes (Exn := Exn) (RemoteId := RemoteId) ev.
Proof. rewrite existsb_app. simpl. now rewrite orb_false_r. Qed.

(** The running check decides the gate. *)
Lemma gated_from_sound tr : forall seen bypass,
  gated_from (bypass || seen) tr = true ->
  forall before c after,
    tr = before ++ Invoke c :: after ->
    destructive c = true ->
    bypass = true \/ seen = true \/ existsb is_yes before = true.
Proof.
  induction tr as [|ev tr IH]; intros seen bypass H before c after Heq Hd.
  - destruct before; discriminate.
  - destruct before as [|ev' before]; simpl in Heq; simplify_eq.
    + simpl in H. rewrite Hd in H. simpl in H.
      apply andb_true_iff in H as [H _].
      apply orb_true_iff in H. tauto.
    + assert (Hnext : gated_from (bypass || (seen || is_yes ev')) (before ++ Invoke c :: after) = true).
      { destruct ev'; simpl in H |- *.
        - now rewrite orb_false_r in *.
        - now rewrite <- orb_assoc in H.
        - apply andb_true_iff in H as [_ H]. now rewrite orb_false_r. }
      destruct (IH _ _ Hnext before c after eq_refl Hd) as [?|[Hs|?]]; auto.
      * apply orb_true_iff in Hs as [?|Hy]; auto.
        right; right. simpl. now rewrite Hy.
      * right; right. simpl. rewrite H0. now rewrite orb_true_r.
Qed.

Lemma gated_from_gated bypass tr : gated_from bypass tr = true -> gated bypass tr.
Proof.
  intros H before c after Heq Hd.
  assert (H' : gated_from (bypass || false) tr = true) by now rewrite orb_false_r.
  destruct (gated_from_sound tr false bypass H' before c after Heq Hd) as [?|[?|?]];
    auto; discriminate.
Qed.

Lemma gated_gated_from bypass tr : gated bypass tr -> gated_from bypass tr = true.
Proof.
  revert bypass. induction tr as [|ev tr IH]; intros bypass H; [done|].
  assert (Htail : forall b', (bypass = true \/ is_yes ev = true -> b' = true) -> gated b' tr).
  { intros b' Hb before c after Heq Hd.
    destruct (H (ev :: before) c after) as [Hb1|Hy]; [now rewrite Heq|done| |].
    - left. auto.
    - simpl in Hy. apply orb_true_iff in Hy as [Hy|Hy]; auto. }
  destruct ev as [m fg|p a|c0]; cbn [gated_from].
  - apply IH, Htail. intros [-> | Hy]; [done | discriminate].
  - apply IH, Htail. intros [-> | ->]; [done | apply orb_true_r].
  - apply andb_true_iff. split.
    + destruct (destructive c0) eqn:Hd; [|done]. simpl.
      destruct (H [] c0 tr eq_refl Hd) as [?|?]; [done|discriminate].
    + apply IH, Htail. intros [?|?]; [done|discriminate].
Qed.

Lemma pull_db_transparent env st rid environment prefix keep :
  transparent env (pull_db env st rid environment prefix keep).
Proof.
  intros s s' tr r H. crunch; repeat split; intros; simplify_eq;
    try (intuition (simplify_eq; eauto); fail); eauto 10.
Qed.


Lemma pull_media_transparent env rid environment :
  transparent env (pull_media env rid environment).
Proof.
  intros s s' tr r H. crunch; repeat split; intros; simplify_eq;
    try (intuition (simplify_eq; eauto); fail); eauto 10.
Qed.

Lemma push_db_transparent env st rid prefix environment dumpfile noinput :
  transparent env (push_db env st rid prefix environment dumpfile noinput).
Proof.
  intros s s' tr r H. crunch; repeat split; intros; simplify_eq;
    try (intuition (simplify_eq; eauto); fail); eauto 10.
Qed.

Lemma push_media_transparent env st rid prefix environment noinput :
  transparent env (push_media env st rid prefix environment noinput).
Proof.
  intros s s' tr r H. crunch; repeat split; intros; simplify_eq;
    try (intuition (simplify_eq; eauto); fail); eauto 10.
Qed.

Lemma import_db_transparent env dump_path prefix :
  transparent env (import_db env dump_path prefix).
Proof.
  intros s s' tr r H. crunch; repeat split; intros; simplify_eq;
    try (intuition (simplify_eq; eauto); fail); eauto 10.
Qed.

Lemma export_db_transparent env prefix :
  transparent env (export_db env prefix).
Proof.
  intros s s' tr r H. crunch; repeat split; intros; simplify_eq;
    try (intuition (simplify_eq; eauto); fail); eauto 10.
Qed.

Lemma transparent_exits env m : transparent env m -> exits_by_outcome env m.
Proof.
  intros Ht s s' tr r Hrun. destruct (Ht s s' tr r Hrun) as (Hinv & _ & _).
  repeat split.
  - now intros ->.
  - now intros e ->.
  - intros c s1 Hin Hc. rewrite (Hinv c Hin) in Hc. now simplify_eq.
  - intros c s1 e Hin Hc. rewrite (Hinv c Hin) in Hc. now simplify_eq.
Qed.



(** C5, as the code has it. On push (database, from the local database or
    from a dump file, and media) the operation that overwrites the cloud is
    entered only after the user said yes at the prompt, unless [--noinput]
    was given. [pull db] and [import db] have no prompt and no bypass: a run
    of either asks nothing and, once the application's home and database
    type are known, goes straight into the import. *)
Theorem push_is_gated_pull_and_import_are_not
    env st rid environment prefix keep_tempfile dumpfile noinput dump_path s :
  (forall s' tr r,
     run (push_db env st rid prefix environment dumpfile noinput) s = Some (s', tr, r) ->
     gated noinput tr)
  /\ (forall s' tr r,
     run (push_media env st rid prefix environment noinput) s = Some (s', tr, r) ->
     gated noinput tr)
  /\ (forall s' tr r,
     run (pull_db env st rid environment prefix keep_tempfile) s = Some (s', tr, r) ->
     existsb is_yes tr = false
     /\ forall home db_type,
          utils_get_application_home env s = Returned home ->
          utils_get_db_type env prefix home s = Returned db_type ->
          tr = [Invoke (ImportRemoteDatabase environment prefix rid db_type
                          (os_path_join home (DIVIO_DUMP_FOLDER st)) keep_tempfile)])
  /\ (forall s' tr r,
     run (import_db env dump_path prefix) s = Some (s', tr, r) ->
     existsb is_yes tr = false
     /\ forall home db_type,
          utils_get_application_home env s = Returned home ->
          utils_get_db_type env prefix home s = Returned db_type ->
          tr = [Invoke (ImportLocalDatabase dump_path prefix db_type)]).
Proof.
  repeat split; intros.
  - apply gated_from_gated. crunch; bools; reflexivity.
  - apply gated_from_gated. crunch; bools; reflexivity.
  - crunch; reflexivity.
  - crunch; reflexivity.
  - crunch; reflexivity.
  - crunch; reflexivity.
Qed.

(** C9. When the user answers no at the prompt of [push db] or
    [push media], the command returns at once: no [localdev] operation is
    invoked, the state is untouched, and the process status is 0. *)
Theorem declined_push_returns_cleanly
    env st rid environment prefix dumpfile noinput s :
  (forall s' tr r,
     run (push_db env st rid prefix environment dumpfile noinput) s = Some (s', tr, r) ->
     existsb is_no tr = true ->
     noinput = false /\ existsb is_invoke tr = false /\ s' = s
     /\ r = Returned tt /\ exit_code r = 0%Z)
  /\ (forall s' tr r,
     run (push_media env st rid prefix environment noinput) s = Some (s', tr, r) ->
     existsb is_no tr = true ->
     noinput = false /\ existsb is_invoke tr = false /\ s' = s
     /\ r = Returned tt /\ exit_code r = 0%Z)
  /\ (forall home db_type,
     utils_get_application_home env s = Returned home ->
     utils_get_db_type env prefix home s = Returned db_type ->
     click_confirm env CONTINUE_PROMPT s = Returned false ->
     run (push_db env st rid prefix environment dumpfile false) s =
       Some (s, [Secho (PUSH_DB_WARNING st environment) "red";
                 Confirm CONTINUE_PROMPT (Returned false)], Returned tt))
  /\ (click_confirm env CONTINUE_PROMPT s = Returned false ->
     run (push_media env st rid prefix environment false) s =
       Some (s, [Secho (PUSH_MEDIA_WARNING st environment) "red";
                 Confirm CONTINUE_PROMPT (Returned false)], Returned tt)).
Proof.
  split; [|split; [|split]].
  - intros s' tr r H Hno. crunch; bools; try discriminate; auto.
  - intros s' tr r H Hno. crunch; bools; try discriminate; auto.
  - intros home db_type Hh Ht Hc. unfold_body. rewrite Hh, Ht.
    destruct (falsy dumpfile); cbn [negb]; now rewrite Hc.
  - intros Hc. unfold_body. cbn [negb]. now rewrite Hc.
Qed.

(** With [--noinput], or after a yes, [push db] goes on to exactly one
    operation: [localdev.push_db] when no dump file was given,
    [localdev.push_local_db] with the file otherwise. With [--noinput]
    nothing is printed and nothing asked. *)
Theorem push_db_dispatch
    env st rid environment prefix dumpfile noinput s home db_type :
  utils_get_application_home env s = Returned home ->
  utils_get_db_type env prefix home s = Returned db_type ->
  noinput = true \/ click_confirm env CONTINUE_PROMPT s = Returned true ->
  let operation :=
    if falsy dumpfile
    then localdev_push_db environment rid prefix db_type
    else localdev_push_local_db environment (default EmptyString dumpfile)
           rid prefix in
  let asked :=
    if noinput then []
    else [Secho (PUSH_DB_WARNING st environment) "red";
          Confirm CONTINUE_PROMPT (Returned true)] in
  run (push_db env st rid prefix environment dumpfile noinput) s =
    match localdev env operation s with
    | None => None
    | Some (s', r) => Some (s', asked ++ [Invoke operation], r)
    end.
Proof.
  intros Hh Ht Hgo. cbv zeta. unfold_body. rewrite Hh, Ht.
  destruct noinput; cbn [negb].
  - destruct (falsy dumpfile); cbn [app];
      now destruct (localdev env _ s) as [[s' r]|].
  - destruct Hgo as [?|Hc]; [discriminate|]. unfold Returned in Hc.
    destruct (falsy dumpfile); rewrite Hc; cbn [negb app];
      now destruct (localdev env _ s) as [[s' r]|].
Qed.

(** [pull db] hands [ImportRemoteDatabase] the options as they were given,
    with the dump folder joined to the application's home, and ends as that
    operation ends. *)
Theorem pull_db_delegates
    env st rid environment prefix keep_tempfile s home db_type :
  utils_get_application_home env s = Returned home ->
  utils_get_db_type env prefix home s = Returned db_type ->
  let operation :=
    ImportRemoteDatabase environment prefix rid db_type
      (os_path_join home (DIVIO_DUMP_FOLDER st)) keep_tempfile in
  run (pull_db env st rid environment prefix keep_tempfile) s =
    match localdev env operation s with
    | None => None
    | Some (s', r) => Some (s', [Invoke operation], r)
    end.
Proof.
  intros Hh Ht. cbv zeta. unfold_body. rewrite Hh, Ht.
  now destruct (localdev env _ s) as [[s' r]|].
Qed.

End Runs.


(** C5, as the specification states it, fails for [pull db]: with a user who would
    answer no to any prompt and no option to bypass one, the run goes into
    [ImportRemoteDatabase], and nothing was confirmed before. *)
Lemma pull_db_enters_import_unconfirmed :
  let tr := [Invoke (ImportRemoteDatabase "live" "DEFAULT" 7 "fsm-postgres"
                       "/home/dev/app/.divio/dumps" false)] in
  run (pull_db (Fixtures.collaborators false) Fixtures.settings 7 "live" "DEFAULT" false) [] =
    Some (["ImportRemoteDatabase"], tr, Returned tt)
  /\ destructive (ImportRemoteDatabase "live" "DEFAULT" 7 "fsm-postgres"
                    "/home/dev/app/.divio/dumps" false) = true
  /\ ~ gated false tr.
Proof.
  cbv zeta. split; [reflexivity|]. split; [reflexivity|].
  intros Hg. destruct (Hg [] _ [] eq_refl eq_refl) as [H|H]; discriminate.
Qed.

(** The commands run in the concrete setting. *)

Example declined_push_db_run :
  run (push_db (Fixtures.collaborators false) Fixtures.settings 7
         "DEFAULT" "live" None false) [] =
    Some ([], [Secho "WARNING: this will overwrite the database of live" "red";
               Confirm CONTINUE_PROMPT (Returned false)], Returned tt).
Proof. reflexivity. Qed.

Example confirmed_push_db_run :
  run (push_db (Fixtures.collaborators true) Fixtures.settings 7
         "DEFAULT" "live" (Some "dump.sql") false) [] =
    Some (["push_local_db"],
          [Secho "WARNING: this will overwrite the database of live" "red";
           Confirm CONTINUE_PROMPT (Returned true);
           Invoke (localdev_push_local_db "live" "dump.sql" 7 "DEFAULT")],
          Returned tt).
Proof. reflexivity. Qed.

Example failing_import_db_run :
  run (import_db (Fixtures.failing false "RestoreError") "local_db.sql" "DEFAULT") [] =
    Some ([], [Invoke (ImportLocalDatabase "local_db.sql" "DEFAULT" "fsm-postgres")],
          Raised "RestoreError")
  /\ exit_code (Exn := string) (A := unit) (Raised "RestoreError") = 1%Z.
Proof. split; reflexivity. Qed.

Example os_path_join_cases :
  os_path_join "/home/dev/app" ".divio/dumps" = "/home/dev/app/.divio/dumps"
  /\ os_path_join "/home/dev/app/" "dumps" = "/home/dev/app/dumps"
  /\ os_path_join "/home/dev/app" "/tmp/dumps" = "/tmp/dumps"
  /\ os_path_join EmptyString "dumps" = "dumps".
Proof. repeat split. Qed.

Lemma push_db_dispatch_with_noinput :
  run (push_db (Fixtures.collaborators false) Fixtures.settings 7
         "DEFAULT" "live" None true) [] =
    Some (["push_db"], [Invoke (localdev_push_db "live" 7 "DEFAULT" "fsm-postgres")],
          Returned tt).
Proof.
  exact (push_db_dispatch (Fixtures.collaborators false) Fixtures.settings 7
           "live" "DEFAULT" None true [] "/home/dev/app" "fsm-postgres"
           eq_refl eq_refl (or_introl eq_refl)).
Defined.

Lemma pull_db_delegates_keeping :
  run (pull_db (Fixtures.collaborators false) Fixtures.settings 7
         "live" "DEFAULT" true) [] =
    Some (["ImportRemoteDatabase"],
          [Invoke (ImportRemoteDatabase "live" "DEFAULT" 7 "fsm-postgres"
                     "/home/dev/app/.divio/dumps" true)],
          Returned tt).
Proof.
  exact (pull_db_delegates (Fixtures.collaborators false) Fixtures.settings 7
           "live" "DEFAULT" true [] "/home/dev/app" "fsm-postgres"
           eq_refl eq_refl).
Defined.

End CliFacts.

Module SyncFacts.
Import Cli Sync.

(** *** The poller *)

Section Poller.
Variable server : Server.
Variables interval timeout : nat.

Local Abbreviation time := (poll_time server interval).
Local Abbreviation times k := (map (poll_time server interval) (seq 0 k)).
Local Abbreviation status k := (reply_status (poll_reply server k)).
Local Abbreviation polled := (Sync.polled server).

Lemma poll_poll r1 r2 job : poll r2 (poll r1 job) = poll r2 job.
Proof. reflexivity. Qed.

Lemma poll_polled k job :
  poll (poll_reply server k) (polled k job) = polled (S k) job.
Proof. destruct k; reflexivity. Qed.

Lemma times_length k : length (times k) = k.
Proof. now rewrite length_map, length_seq. Qed.

Lemma times_S k : times (S k) = times k ++ [time k].
Proof. now rewrite seq_S, map_app. Qed.

Lemma poll_time_mono i k : (i <= k)%nat -> (time i <= time k)%nat.
Proof. induction 1; simpl; lia. Qed.

Lemma poll_time_grows k : (k * interval <= time k)%nat.
Proof. induction k; simpl; lia. Qed.

(** The first [k] rounds, when each finds the job waiting and begins
    within the timeout. *)
Lemma wait_loop_rounds job k : forall fuel,
  (k <= fuel)%nat ->
  (forall i, (i < k)%nat -> waiting (status i) = true /\ (time i <= timeout)%nat) ->
  wait_loop server interval timeout fuel [] 0 job =
  wait_loop server interval timeout (fuel - k) (times k) (time k) (polled k job).
Proof.
  induction k as [|k IH]; intros fuel Hfuel Hwait.
  - now rewrite Nat.sub_0_r.
  - rewrite IH by (try lia; intros i Hi; apply Hwait; lia).
    destruct (Hwait k ltac:(lia)) as [Hk Ht].
    replace (fuel - k)%nat with (S (fuel - S k)) by lia.
    cbn [wait_loop].
    assert (Hlt : (timeout <? time k)%nat = false) by (apply Nat.ltb_ge; lia).
    rewrite Hlt, times_length, poll_polled, <- times_S.
    destruct (status k); try discriminate; reflexivity.
Qed.

(** What the round at poll [k] does once it is reached with fuel left. *)
Lemma wait_loop_settle job k fuel :
  (k < fuel)%nat ->
  (time k <= timeout)%nat ->
  waiting (status k) = false ->
  wait_loop server interval timeout (fuel - k) (times k) (time k) (polled k job) =
  Some (match status k with
        | Ready => Returned (polled (S k) job)
        | _ => Raised (JobFailedError (reply_message (poll_reply server k)))
        end, times (S k)).
Proof.
  intros Hfuel Ht Hs.
  replace (fuel - k)%nat with (S (fuel - S k)) by lia.
  cbn [wait_loop].
  assert (Hlt : (timeout <? time k)%nat = false) by (apply Nat.ltb_ge; lia).
  rewrite Hlt, times_length, poll_polled, <- times_S.
  destruct (status k); try discriminate; reflexivity.
Qed.

Lemma wait_loop_expired job k fuel :
  (k < fuel)%nat ->
  (timeout < time k)%nat ->
  wait_loop server interval timeout (fuel - k) (times k) (time k) (polled k job) =
  Some (Raised JobTimeoutError, times k).
Proof.
  intros Hfuel Ht.
  replace (fuel - k)%nat with (S (fuel - S k)) by lia.
  cbn [wait_loop].
  assert (Hlt : (timeout <? time k)%nat = true) by (apply Nat.ltb_lt; lia).
  now rewrite Hlt.
Qed.

(** The first poll that would begin after the timeout. *)
Lemma first_late m :
  (timeout < time m)%nat ->
  exists n, (n <= m)%nat /\ (timeout < time n)%nat
            /\ forall i, (i < n)%nat -> (time i <= timeout)%nat.
Proof.
  induction m as [|m IH]; intros Hm.
  - simpl in Hm. lia.
  - destruct (Nat.le_gt_cases (time m) timeout) as [Hle|Hgt].
    + exists (S m). split; [lia|]. split; [exact Hm|].
      intros i Hi. etransitivity; [apply (poll_time_mono i m); lia | exact Hle].
    + destruct (IH Hgt) as (n & Hn & Hlate & Hbefore).
      exists n. split; [lia|]. now split.
Qed.

Lemma settled_in_time k :
  first_settled server k -> (time k <= timeout)%nat ->
  forall i, (i < k)%nat -> waiting (status i) = true /\ (time i <= timeout)%nat.
Proof.
  intros Hfirst Ht i Hi. split; [now apply Hfirst|].
  etransitivity; [apply (poll_time_mono i k); lia | exact Ht].
Qed.

Lemma wait_ready job k fuel :
  first_settled server k -> (time k <= timeout)%nat -> (k < fuel)%nat ->
  status k = Ready ->
  wait_until_ready server job interval timeout fuel =
  Some (Returned (poll (poll_reply server k) job), times (S k)).
Proof.
  intros Hfirst Ht Hfuel Hs. unfold wait_until_ready.
  rewrite (wait_loop_rounds job k) by (try lia; now apply settled_in_time).
  rewrite wait_loop_settle by (try lia; now rewrite Hs).
  now rewrite Hs.
Qed.

Lemma wait_failed job k fuel :
  first_settled server k -> (time k <= timeout)%nat -> (k < fuel)%nat ->
  status k = Failed \/ status k = Expired ->
  wait_until_ready server job interval timeout fuel =
  Some (Raised (JobFailedError (reply_message (poll_reply server k))), times (S k)).
Proof.
  intros Hfirst Ht Hfuel Hs. unfold wait_until_ready.
  rewrite (wait_loop_rounds job k) by (try lia; now apply settled_in_time).
  rewrite wait_loop_settle by (try lia; now destruct Hs as [-> | ->]).
  now destruct Hs as [-> | ->].
Qed.

Lemma wait_timeout job fuel :
  (0 < interval)%nat ->
  (forall i, (time i <= timeout)%nat -> waiting (status i) = true) ->
  (timeout + 2 <= fuel)%nat ->
  exists n, wait_until_ready server job interval timeout fuel =
              Some (Raised JobTimeoutError, times n)
            /\ (timeout < time n)%nat
            /\ (forall i, (i < n)%nat -> (time i <= timeout)%nat).
Proof.
  intros Hpos Hwait Hfuel.
  assert (Hlate : (timeout < time (S timeout))%nat).
  { pose proof (poll_time_grows (S timeout)). nia. }
  destruct (first_late _ Hlate) as (n & Hn & Hexceeds & Hbefore).
  exists n. split; [|now split]. unfold wait_until_ready.
  rewrite (wait_loop_rounds job n) by (try lia; intros i Hi; split; auto).
  apply wait_loop_expired; lia.
Qed.

(** With a positive interval and fuel past the timeout the wait comes back,
    whatever the server answers. *)
Lemma wait_loop_total job : forall fuel started elapsed,
  (0 < interval)%nat ->
  (1 <= fuel)%nat ->
  (timeout < elapsed \/ timeout + 2 <= fuel + elapsed)%nat ->
  is_Some (wait_loop server interval timeout fuel started elapsed job).
Proof.
  intros fuel. revert job.
  induction fuel as [|fuel IH]; intros job started elapsed Hpos Hfuel Hbound; [lia|].
  cbn [wait_loop].
  destruct (timeout <? elapsed)%nat eqn:Hlt; [eauto|].
  apply Nat.ltb_ge in Hlt.
  destruct (reply_status _); eauto; apply IH; lia.
Qed.

Lemma wait_until_ready_total job fuel :
  (0 < interval)%nat -> (timeout + 2 <= fuel)%nat ->
  is_Some (wait_until_ready server job interval timeout fuel).
Proof. intros. apply wait_loop_total; lia. Qed.

End Poller.


(** *** The file system *)

Section Files.
Implicit Types (fs : FS) (p ws : string) (h : TransferHandle).

Lemma read_file_lookup p fs c : read_file p fs = Some c <-> fs !! p = Some (File c).
Proof.
  unfold read_file. destruct (fs !! p) as [[|c']|]; split; intros H; now simplify_eq.
Qed.

Lemma read_write_file p c fs : read_file p (write_file p c fs) = Some c.
Proof. unfold read_file, write_file. now rewrite lookup_insert_eq. Qed.

Lemma write_write_file p c1 c2 fs :
  write_file p c2 (write_file p c1 fs) = write_file p c2 fs.
Proof. apply insert_insert_eq. Qed.

Lemma write_file_same p c fs : read_file p fs = Some c -> write_file p c fs = fs.
Proof. intros H. apply insert_id. now apply read_file_lookup. Qed.

Lemma starts_with_app a b c : starts_with (a +:+ b) (a +:+ c) = starts_with b c.
Proof.
  induction a as [|x a IH]; [done|]. simpl. now rewrite Ascii.eqb_refl.
Qed.

Lemma starts_with_empty s : starts_with EmptyString s = true.
Proof. now destruct s. Qed.

Lemma length_append a b : String.length (a +:+ b) = (String.length a + String.length b)%nat.
Proof. induction a as [|x a IH]; simpl; [done|]. now rewrite IH. Qed.

(** What [os.path.join] gives for a relative second component. *)
Lemma os_path_join_relative ws name :
  starts_with_sep name = false ->
  exists sep, (sep = EmptyString \/ sep = "/")
              /\ forall n, starts_with_sep n = false \/ n = name ->
                           os_path_join ws n = ws +:+ sep +:+ n.
Proof.
  intros Hrel. unfold os_path_join.
  destruct (is_empty ws || ends_with_sep ws) eqn:Hsep.
  - exists EmptyString. split; [now left|]. intros n [Hn| ->].
    + now rewrite Hn.
    + now rewrite Hrel.
  - exists "/". split; [now right|]. intros n [Hn| ->].
    + now rewrite Hn.
    + now rewrite Hrel.
Qed.

Lemma inside_self ws : inside ws ws = true.
Proof. unfold inside. now rewrite String.eqb_refl. Qed.

Lemma inside_join ws name :
  starts_with_sep name = false -> inside ws (os_path_join ws name) = true.
Proof.
  intros Hrel. unfold inside. apply orb_true_iff. right.
  destruct (os_path_join_relative ws name Hrel) as (sep & _ & Hjoin).
  rewrite (Hjoin EmptyString) by now left.
  rewrite (Hjoin name) by now right.
  rewrite starts_with_app, starts_with_app. apply starts_with_empty.
Qed.

Lemma join_not_self ws name :
  starts_with_sep name = false -> name <> EmptyString -> os_path_join ws name <> ws.
Proof.
  intros Hrel Hne Heq.
  destruct (os_path_join_relative ws name Hrel) as (sep & _ & Hjoin).
  rewrite (Hjoin name) in Heq by now right.
  apply (f_equal String.length) in Heq. rewrite !length_append in Heq.
  destruct name; [done|]. simpl in Heq. lia.
Qed.

Lemma rmtree_inside ws p fs : inside ws p = true -> rmtree ws fs !! p = None.
Proof.
  intros Hin. unfold rmtree. apply map_lookup_filter_None. right.
  intros x _. simpl. now rewrite Hin.
Qed.

Lemma rmtree_outside ws p fs : inside ws p = false -> rmtree ws fs !! p = fs !! p.
Proof.
  intros Hout. unfold rmtree. destruct (fs !! p) as [x|] eqn:Hp.
  - apply map_lookup_filter_Some. now split.
  - apply map_lookup_filter_None. now left.
Qed.

(** *** The downloader *)

Lemma stream_spec cs : forall h fs old,
  read_file (destination h) fs = Some old ->
  stream cs h fs =
    (write_file (destination h) (old ++ concat cs) fs,
     {| source := source h; destination := destination h;
        expected_size := expected_size h;
        transferred := transferred h + length (concat cs) |}).
Proof.
  induction cs as [|c rest IH]; intros h fs old Hold.
  - simpl. rewrite app_nil_r, Nat.add_0_r, (write_file_same _ _ _ Hold).
    now destruct h.
  - cbn [stream concat].
    assert (Happ : append_file (destination h) c fs
                   = write_file (destination h) (old ++ c) fs).
    { unfold append_file. now rewrite Hold. }
    rewrite Happ.
    rewrite (IH _ _ (old ++ c)) by (cbn [destination]; apply read_write_file).
    cbn [source destination expected_size transferred].
    rewrite write_write_file, <- app_assoc, length_app.
    do 2 f_equal. lia.
Qed.

Lemma download_spec resp url dest fs :
  let received := concat (chunks resp) in
  let full := write_file dest received fs in
  download resp url dest fs =
    if interrupted resp
       || match declared_length resp with
          | Some n => (length received <? n)%nat
          | None => false
          end
    then (remove dest full, Raised IncompleteTransferError)
    else (full, Returned {| source := url; destination := dest;
                            expected_size := declared_length resp;
                            transferred := length received |}).
Proof.
  cbv zeta. unfold download.
  rewrite (stream_spec _ _ _ []) by (cbn [destination]; apply read_write_file).
  cbn [source destination expected_size transferred app Nat.add].
  rewrite write_write_file. unfold short. cbn [expected_size transferred].
  reflexivity.
Qed.

(** A download touches its destination only. *)
Lemma download_frame resp url dest fs fs' r p :
  download resp url dest fs = (fs', r) -> p <> dest -> fs' !! p = fs !! p.
Proof.
  rewrite download_spec. cbv zeta. intros H Hp.
  destruct (_ || _); simplify_eq; unfold remove, write_file.
  - now rewrite lookup_delete_ne, lookup_insert_ne.
  - now rewrite lookup_insert_ne.
Qed.

(** A download that is neither cut nor short leaves the bytes received at
    its destination. *)
Lemma download_complete resp url dest fs :
  interrupted resp = false ->
  (forall n, declared_length resp = Some n -> (n <= length (concat (chunks resp)))%nat) ->
  exists h, download resp url dest fs =
              (write_file dest (concat (chunks resp)) fs, Returned h)
            /\ transferred h = length (concat (chunks resp))
            /\ destination h = dest.
Proof.
  intros Hint Hlen. rewrite download_spec. cbv zeta. rewrite Hint.
  destruct (declared_length resp) as [n|] eqn:Hd; simpl.
  - specialize (Hlen n eq_refl).
    assert (Hlt : (length (concat (chunks resp)) <? n)%nat = false)
      by (apply Nat.ltb_ge; lia).
    rewrite Hlt. eauto.
  - eauto.
Qed.

End Files.

(** C3. A download that the server cut off, or whose declared content
    length is not met, raises [IncompleteTransferError]; when the error
    goes out no file is left at the destination path, and no other path
    was touched. *)
Theorem short_download_leaves_no_partial_file :
  forall (resp : Response) (url dest : string) (fs : FS),
    (interrupted resp = true
     \/ exists n, declared_length resp = Some n
                  /\ (length (concat (chunks resp)) < n)%nat) ->
    exists fs',
      download resp url dest fs = (fs', Raised IncompleteTransferError)
      /\ fs' !! dest = None
      /\ forall p, p <> dest -> fs' !! p = fs !! p.
Proof.
  intros resp url dest fs Hshort.
  exists (remove dest (write_file dest (concat (chunks resp)) fs)).
  split; [|split].
  - rewrite download_spec. cbv zeta.
    destruct Hshort as [-> | (n & -> & Hlt)]; [reflexivity|].
    apply Nat.ltb_lt in Hlt. rewrite Hlt. now rewrite orb_true_r.
  - apply lookup_delete_eq.
  - intros p Hp. unfold remove, write_file.
    now rewrite lookup_delete_ne, lookup_insert_ne.
Qed.

(** *** Bodies that keep a property, bodies that come back *)

Section Bodies.
Context {St Ev Exn : Type}.
Implicit Types (I : St -> Prop).

Lemma preserves_ret {A} I (a : A) : preserves I (ret (Ev := Ev) (Exn := Exn) a).
Proof. intros s tr s' tr' r H. unfold ret in H. now simplify_eq. Qed.

Lemma preserves_raise {A} I (e : Exn) : preserves I (raise (Ev := Ev) (A := A) e).
Proof. intros s tr s' tr' r H. unfold raise in H. now simplify_eq. Qed.

Lemma preserves_ask {A} I (f : St -> result Exn A) : preserves I (ask (Ev := Ev) f).
Proof. intros s tr s' tr' r H. unfold ask in H. now simplify_eq. Qed.

Lemma preserves_emit I (ev : Ev) : preserves I (emit (Exn := Exn) ev).
Proof. intros s tr s' tr' r H. unfold emit in H. now simplify_eq. Qed.

Lemma preserves_bind {A B} I (m : Prog St Ev Exn A) (k : A -> Prog St Ev Exn B) :
  preserves I m -> (forall a, preserves I (k a)) -> preserves I (bind m k).
Proof.
  intros Hm Hk s tr s' tr' r H HI. unfold bind in H.
  destruct (m s tr) as [[[s1 tr1] [e|a]]|] eqn:Hms; simplify_eq.
  - eapply Hm; eauto.
  - eapply Hk; eauto.
Qed.

Lemma preserves_state_op {A} I (f : St -> St * result Exn A) :
  (forall s s' r, f s = (s', r) -> I s -> I s') ->
  preserves I (state_op (Ev := Ev) f).
Proof.
  intros Hf s tr s' tr' r H HI. unfold state_op in H.
  destruct (f s) as [s1 r1] eqn:Hfs. simplify_eq. eauto.
Qed.

Lemma preserves_on_failure {A} I (m : Prog St Ev Exn A) h :
  preserves I m -> preserves I h -> preserves I (on_failure m h).
Proof.
  intros Hm Hh s tr s' tr' r H HI. unfold on_failure in H.
  destruct (m s tr) as [[[s1 tr1] [e|a]]|] eqn:Hms; simplify_eq.
  - destruct (h s1 tr1) as [[[s2 tr2] r2]|] eqn:Hhs; simplify_eq.
    eapply Hh; eauto.
  - eapply Hm; eauto.
Qed.

Lemma comes_back_ret {A} (a : A) : comes_back (ret (St := St) (Ev := Ev) (Exn := Exn) a).
Proof. intros s tr. unfold ret. eauto. Qed.

Lemma comes_back_raise {A} (e : Exn) : comes_back (raise (St := St) (Ev := Ev) (A := A) e).
Proof. intros s tr. unfold raise. eauto. Qed.

Lemma comes_back_ask {A} (f : St -> result Exn A) : comes_back (ask (Ev := Ev) f).
Proof. intros s tr. unfold ask. eauto. Qed.

Lemma comes_back_emit (ev : Ev) : comes_back (emit (St := St) (Exn := Exn) ev).
Proof. intros s tr. unfold emit. eauto. Qed.

Lemma comes_back_modify (f : St -> St) : comes_back (modify (Ev := Ev) (Exn := Exn) f).
Proof. intros s tr. unfold modify. eauto. Qed.

Lemma comes_back_state_op {A} (f : St -> St * result Exn A) :
  comes_back (state_op (Ev := Ev) f).
Proof. intros s tr. unfold state_op. destruct (f s). eauto. Qed.

Lemma comes_back_bind {A B} (m : Prog St Ev Exn A) (k : A -> Prog St Ev Exn B) :
  comes_back m -> (forall a, comes_back (k a)) -> comes_back (bind m k).
Proof.
  intros Hm Hk s tr. unfold bind.
  destruct (Hm s tr) as [[[s1 tr1] [e|a]] ->]; [eauto | apply Hk].
Qed.

Lemma comes_back_on_failure {A} (m : Prog St Ev Exn A) h :
  comes_back m -> comes_back h -> comes_back (on_failure m h).
Proof.
  intros Hm Hh s tr. unfold on_failure.
  destruct (Hm s tr) as [[[s1 tr1] [e|a]] ->]; eauto.
  destruct (Hh s1 tr1) as [[[s2 tr2] r2] ->]; eauto.
Qed.

Lemma comes_back_finally {A} (m : Prog St Ev Exn A) h :
  comes_back m -> comes_back h -> comes_back (finally m h).
Proof.
  intros Hm Hh s tr. unfold finally.
  destruct (Hm s tr) as [[[s1 tr1] r1] ->].
  destruct (Hh s1 tr1) as [[[s2 tr2] [e|u]] ->]; eauto.
Qed.

Lemma raises_only_ret {A} P (a : A) :
  raises_only P (ret (St := St) (Ev := Ev) (Exn := Exn) a).
Proof. intros s tr s' tr' e H. unfold ret, Returned, Raised in H. simplify_eq. Qed.

Lemma raises_only_raise {A} (P : Exn -> Prop) e :
  P e -> raises_only P (raise (St := St) (Ev := Ev) (A := A) e).
Proof. intros He s tr s' tr' e' H. unfold raise, Raised in H. now simplify_eq. Qed.

Lemma raises_only_emit P (ev : Ev) : raises_only P (emit (St := St) (Exn := Exn) ev).
Proof. intros s tr s' tr' e H. unfold emit, Returned, Raised in H. simplify_eq. Qed.

Lemma raises_only_modify P (f : St -> St) :
  raises_only P (modify (Ev := Ev) (Exn := Exn) f).
Proof. intros s tr s' tr' e H. unfold modify, Returned, Raised in H. simplify_eq. Qed.

Lemma raises_only_ask {A} (P : Exn -> Prop) (f : St -> result Exn A) :
  (forall s e, f s = Raised e -> P e) -> raises_only P (ask (Ev := Ev) f).
Proof. intros Hf s tr s' tr' e H. unfold ask in H. simplify_eq. eauto. Qed.

Lemma raises_only_state_op {A} (P : Exn -> Prop) (f : St -> St * result Exn A) :
  (forall s s' e, f s = (s', Raised e) -> P e) ->
  raises_only P (state_op (Ev := Ev) f).
Proof.
  intros Hf s tr s' tr' e H. unfold state_op in H.
  destruct (f s) as [s1 r1] eqn:Hfs. simplify_eq. eauto.
Qed.

Lemma raises_only_bind {A B} P (m : Prog St Ev Exn A) (k : A -> Prog St Ev Exn B) :
  raises_only P m -> (forall a, raises_only P (k a)) -> raises_only P (bind m k).
Proof.
  intros Hm Hk s tr s' tr' e H. unfold bind in H.
  destruct (m s tr) as [[[s1 tr1] [e1|a]]|] eqn:Hms; unfold Raised in *; simplify_eq.
  - eapply Hm; eauto.
  - eapply Hk; eauto.
Qed.

Lemma raises_only_on_failure {A} P (m : Prog St Ev Exn A) h :
  raises_only P m -> raises_only P (on_failure m h).
Proof.
  intros Hm s tr s' tr' e H. unfold on_failure in H.
  destruct (m s tr) as [[[s1 tr1] [e1|a]]|] eqn:Hms; unfold Raised in *; simplify_eq.
  destruct (h s1 tr1) as [[[s2 tr2] r2]|]; simplify_eq.
  eapply Hm; eauto.
Qed.

Lemma raises_only_finally {A} P (m : Prog St Ev Exn A) h :
  raises_only P m -> raises_only P h -> raises_only P (finally m h).
Proof.
  intros Hm Hh s tr s' tr' e H. unfold finally in H.
  destruct (m s tr) as [[[s1 tr1] r1]|] eqn:Hms; unfold Raised in *; simplify_eq.
  destruct (h s1 tr1) as [[[s2 tr2] [e2|u]]|] eqn:Hhs; simplify_eq.
  - eapply Hh; eauto.
  - eapply Hm; eauto.
Qed.

End Bodies.

(** *** The workflow *)

Section Workflow.
Variables (cfg : Config) (server : Server) (local : Local) (fuel : nat).

Local Abbreviation ws := (cfg_dump_path cfg).

Lemma enter_preserves (I : FS -> Prop) st : preserves I (enter local st).
Proof.
  unfold enter. apply preserves_bind; [apply preserves_emit|]. intros _.
  destruct (interrupted_in local st); [apply preserves_raise | apply preserves_ret].
Qed.

Lemma enter_comes_back st : comes_back (enter local st).
Proof.
  unfold enter. apply comes_back_bind; [apply comes_back_emit|]. intros _.
  destruct (interrupted_in local st); [apply comes_back_raise | apply comes_back_ret].
Qed.

Lemma await_preserves (I : FS -> Prop) job interval timeout :
  preserves I (await server job interval timeout fuel).
Proof.
  intros s tr s' tr' r H. unfold await in H.
  destruct (wait_until_ready _ _ _ _ _) as [[r1 ts]|]; now simplify_eq.
Qed.

Lemma await_comes_back job interval timeout :
  (0 < interval)%nat -> (timeout + 2 <= fuel)%nat ->
  comes_back (await server job interval timeout fuel).
Proof.
  intros Hpos Hfuel s tr. unfold await.
  destruct (wait_until_ready_total server interval timeout job fuel Hpos Hfuel)
    as [[r ts] ->]. eauto.
Qed.

Lemma extract_frame archive fs fs' r p :
  extract local archive ws fs = (fs', r) ->
  p <> extracted_path ws -> fs' !! p = fs !! p.
Proof.
  unfold extract. intros H Hp.
  destruct (read_file archive fs) as [packed|]; simplify_eq; [|done].
  destruct (open_archive local packed); simplify_eq; [|done].
  unfold write_file. now rewrite lookup_insert_ne.
Qed.

(** The stages write below the workspace only: any other path keeps what
    it held. *)
Lemma pull_stages_frame p x :
  p <> archive_path ws -> p <> extracted_path ws ->
  preserves (fun fs => fs !! p = x) (pull_stages cfg server local fuel).
Proof.
  intros Ha He. unfold pull_stages.
  repeat first
    [ apply enter_preserves
    | apply preserves_ask
    | apply await_preserves
    | apply preserves_emit
    | apply preserves_bind; [|intros ?] ].
  - apply preserves_state_op. intros s s' r H <-.
    now apply (download_frame _ _ _ _ _ _ _ H).
  - apply preserves_state_op. intros s s' r H <-.
    now apply (extract_frame _ _ _ _ _ H).
Qed.

Lemma pull_stages_comes_back :
  (0 < cfg_interval cfg)%nat -> (cfg_timeout cfg + 2 <= fuel)%nat ->
  comes_back (pull_stages cfg server local fuel).
Proof.
  intros Hpos Hfuel. unfold pull_stages.
  repeat first
    [ apply enter_comes_back
    | apply comes_back_ask
    | apply await_comes_back; assumption
    | apply comes_back_state_op
    | apply comes_back_emit
    | apply comes_back_bind; [|intros ?] ].
Qed.

Lemma release_comes_back : comes_back (release cfg).
Proof.
  unfold release. destruct (cfg_keep_tempfile cfg);
    [apply comes_back_ret | apply comes_back_modify].
Qed.

Lemma workflow_comes_back :
  (0 < cfg_interval cfg)%nat -> (cfg_timeout cfg + 2 <= fuel)%nat ->
  comes_back (ImportRemoteDatabase_call cfg server local fuel).
Proof.
  intros Hpos Hfuel. unfold ImportRemoteDatabase_call.
  apply comes_back_bind; [apply comes_back_modify|]. intros _.
  apply comes_back_finally; [|apply release_comes_back].
  apply comes_back_on_failure; [|apply comes_back_emit].
  now apply pull_stages_comes_back.
Qed.

(** Every way out of the workflow goes through the release. *)
Lemma workflow_released fs fs' tr r :
  run (ImportRemoteDatabase_call cfg server local fuel) fs = Some (fs', tr, r) ->
  (cfg_keep_tempfile cfg = false ->
     forall p, inside ws p = true -> fs' !! p = None)
  /\ (cfg_keep_tempfile cfg = true -> fs' !! ws = Some Dir).
Proof.
  unfold run, ImportRemoteDatabase_call, bind, modify, finally. intros H.
  destruct (on_failure _ _ _ _) as [[[fs1 tr1] r1]|] eqn:Hbody; [|discriminate].
  assert (Hkept : fs1 !! ws = Some Dir).
  { eapply (preserves_on_failure (fun fs => fs !! ws = Some Dir)); [| |exact Hbody|].
    - apply pull_stages_frame; apply not_eq_sym, join_not_self; done.
    - apply preserves_emit.
    - unfold mkdir. apply lookup_insert_eq. }
  unfold release in H. destruct (cfg_keep_tempfile cfg); split; intros Hk;
    try discriminate; unfold ret, modify, Returned in H; cbn in H; simplify_eq.
  - exact Hkept.
  - intros p Hp. now apply rmtree_inside.
Qed.

(** An error that leaves the restore step carries the text the engine
    wrote, and only a failed restore raises [RestoreError]. *)
Lemma import_dump_outcome extracted engine fs :
  let r := restore_process local (restore_command engine extracted) fs in
  (exit_status r <> 0%Z ->
     import_dump local extracted engine fs = Raised (RestoreError (output r)))
  /\ (exit_status r = 0%Z -> import_dump local extracted engine fs = Returned tt).
Proof.
  cbv zeta. unfold import_dump. split; intros H.
  - apply Z.eqb_neq in H. now rewrite H.
  - now rewrite H.
Qed.

Lemma enter_raises st : raises_only (from_restore local) (enter local st).
Proof.
  unfold enter. apply raises_only_bind; [apply raises_only_emit|].
  intros _. destruct (interrupted_in local st).
  - apply raises_only_raise. intros d Hd. discriminate.
  - apply raises_only_ret.
Qed.

Lemma wait_loop_raises interval timeout : forall n started elapsed job e ts,
  wait_loop server interval timeout n started elapsed job = Some (Raised e, ts) ->
  e = JobTimeoutError \/ exists m, e = JobFailedError m.
Proof.
  induction n as [|n IH]; intros started elapsed job e ts H; [discriminate|].
  cbn [wait_loop] in H.
  destruct (timeout <? elapsed)%nat; [unfold Raised in H; simplify_eq; now left|].
  destruct (reply_status _); unfold Raised, Returned in H; simplify_eq; eauto.
Qed.

Lemma pull_stages_raises :
  raises_only (from_restore local) (pull_stages cfg server local fuel).
Proof.
  unfold pull_stages.
  repeat first
    [ apply enter_raises
    | apply raises_only_emit
    | apply raises_only_bind; [|intros ?] ].
  - apply raises_only_ask. intros s e H d ->. unfold request_dump in H.
    destruct (_ && _); discriminate.
  - intros s tr s' tr' e H d ->. unfold await in H.
    destruct (wait_until_ready _ _ _ _ _) as [[r ts]|] eqn:Hw; [|discriminate].
    unfold Raised in H. simplify_eq.
    destruct (wait_loop_raises _ _ _ _ _ _ _ _ Hw) as [?|[m ?]]; discriminate.
  - apply raises_only_state_op. intros s s' e H d ->.
    rewrite download_spec in H. cbv zeta in H. destruct (_ || _); discriminate.
  - apply raises_only_state_op. intros s s' e H d ->. unfold extract in H.
    destruct (read_file _ s); [|discriminate].
    destruct (open_archive local _); discriminate.
  - apply raises_only_ask. intros s e H d ->. unfold import_dump in H.
    destruct (exit_status _ =? 0)%Z eqn:Hexit; [discriminate|].
    unfold Raised in H. simplify_eq. apply Z.eqb_neq in Hexit. eauto.
Qed.

Lemma workflow_raises :
  raises_only (from_restore local) (ImportRemoteDatabase_call cfg server local fuel).
Proof.
  unfold ImportRemoteDatabase_call.
  apply raises_only_bind; [apply raises_only_modify|]. intros _.
  apply raises_only_finally.
  - apply raises_only_on_failure, pull_stages_raises.
  - unfold release. destruct (cfg_keep_tempfile cfg);
      [apply raises_only_ret | apply raises_only_modify].
Qed.

End Workflow.


(** C7. [import_dump] succeeds when the restore process exits with 0 and
    fails with [RestoreError] when it exits with anything else; the error
    carries the text the engine wrote, and so does every [RestoreError]
    that comes out of the workflow. *)
Theorem restore_error_keeps_the_diagnostic :
  forall (local : Local),
    (forall (extracted : string) (engine : DatabaseEngineDescriptor) (fs : FS),
       let r := restore_process local (restore_command engine extracted) fs in
       (exit_status r <> 0%Z ->
          import_dump local extracted engine fs = Raised (RestoreError (output r)))
       /\ (exit_status r = 0%Z ->
          import_dump local extracted engine fs = Returned tt))
    /\ (forall (cfg : Config) (server : Server) (fuel : nat) (fs fs' : FS)
          (tr : list WfState) (d : string),
          run (ImportRemoteDatabase_call cfg server local fuel) fs =
            Some (fs', tr, Raised (RestoreError d)) ->
          exists command files,
            d = output (restore_process local command files)
            /\ exit_status (restore_process local command files) <> 0%Z).
Proof.
  intros local. split.
  - intros extracted engine fs. apply import_dump_outcome.
  - intros cfg server fuel fs fs' tr d Hrun.
    exact (workflow_raises cfg server local fuel fs [] fs' tr _ Hrun d eq_refl).
Qed.

(** The workflow run in the concrete setting: a job that is ready at the
    third poll, four bytes declared and received. *)

Example pull_reaches_done :
  Fixtures.listing
    (run (ImportRemoteDatabase_call (Fixtures.config false) Fixtures.server
            (Fixtures.machine 0 Fixtures.never) 100) ∅) =
  Some ([], [Requesting; Polling; Downloading; Extracting; Importing; Done],
        Returned tt).
Proof. vm_compute. reflexivity. Qed.

Example pull_keeps_the_workspace :
  Fixtures.listing
    (run (ImportRemoteDatabase_call (Fixtures.config true) Fixtures.server
            (Fixtures.machine 0 Fixtures.never) 100) ∅) =
  Some ([("/home/dev/app/.divio/dumps/archive", File [x01; x02; x03; x04]);
         ("/home/dev/app/.divio/dumps/dump", File [x01; x02; x03; x04]);
         ("/home/dev/app/.divio/dumps", Dir)],
        [Requesting; Polling; Downloading; Extracting; Importing; Done],
        Returned tt).
Proof. vm_compute. reflexivity. Qed.

Example pull_with_failing_restore :
  Fixtures.listing
    (run (ImportRemoteDatabase_call (Fixtures.config false) Fixtures.server
            (Fixtures.machine 1 Fixtures.never) 100) ∅) =
  Some ([], [Requesting; Polling; Downloading; Extracting; Importing; WorkflowFailed],
        Raised (RestoreError "constraint violation")).
Proof. vm_compute. reflexivity. Qed.

Example pull_with_short_download :
  Fixtures.listing
    (run (ImportRemoteDatabase_call (Fixtures.config true) Fixtures.short_server
            (Fixtures.machine 0 Fixtures.never) 100) ∅) =
  Some ([("/home/dev/app/.divio/dumps", Dir)],
        [Requesting; Polling; Downloading; WorkflowFailed],
        Raised IncompleteTransferError).
Proof. vm_compute. reflexivity. Qed.

Example pull_interrupted :
  Fixtures.listing
    (run (ImportRemoteDatabase_call (Fixtures.config false) Fixtures.server
            (Fixtures.machine 0 Fixtures.while_extracting) 100) ∅) =
  Some ([], [Requesting; Polling; Downloading; Extracting; WorkflowFailed],
        Raised KeyboardInterrupt).
Proof. vm_compute. reflexivity. Qed.

Example pull_out_of_fuel :
  run (ImportRemoteDatabase_call (Fixtures.config false) Fixtures.server
         (Fixtures.machine 0 Fixtures.never) 2) ∅ = None.
Proof. vm_compute. reflexivity. Qed.



Lemma short_download_of_two_bytes :
  exists fs',
    download (download_response Fixtures.short_server) "https://cloud/dump/1"
      "/home/dev/app/.divio/dumps/archive" ∅ = (fs', Raised IncompleteTransferError)
    /\ fs' !! "/home/dev/app/.divio/dumps/archive" = None
    /\ forall p, p <> "/home/dev/app/.divio/dumps/archive" -> fs' !! p = (∅ : FS) !! p.
Proof.
  apply short_download_leaves_no_partial_file.
  right. exists 4%nat. split; [reflexivity | simpl; lia].
Defined.

End SyncFacts.

Module LoginFacts.
Import Cli Process Login.

Lemma list_to_set_all_one (c : ascii) (l : list ascii) :
  list_to_set (C := gset ascii) l = {[c]} <-> l <> [] /\ Forall (fun x => x = c) l.
Proof.
  split.
  - intros Hset. split.
    + intros ->. simpl in Hset. set_solver.
    + apply Forall_forall. intros x Hx.
      assert (Hin : x ∈ list_to_set (C := gset ascii) l)
        by (apply elem_of_list_to_set, Hx).
      rewrite Hset in Hin. set_solver.
  - intros [Hne Hall]. apply set_eq. intros x.
    rewrite elem_of_list_to_set, elem_of_singleton. split.
    + intros Hx. rewrite Forall_forall in Hall. now apply Hall.
    + intros ->. destruct l as [|y l]; [done|].
      inversion Hall; subst. left.
Qed.

Lemma elements_one (c : ascii) (X : gset ascii) : elements X = [c] <-> X = {[c]}.
Proof.
  split.
  - intros Hel. rewrite <- (list_to_set_elements_L X), Hel. simpl.
    apply union_empty_r_L.
  - intros ->. apply elements_singleton.
Qed.

Lemma string_of_list_ascii_inj l1 l2 :
  string_of_list_ascii l1 = string_of_list_ascii l2 -> l1 = l2.
Proof.
  intros H. apply (f_equal list_ascii_of_string) in H.
  now rewrite !list_ascii_of_string_of_list_ascii in H.
Qed.

(** The test reads a value as a paste malfunction exactly when the value is
    one or more ^V characters and nothing else. *)
Lemma paste_malfunction_spec value :
  paste_malfunction value = true <->
  value <> EmptyString /\ Forall (fun c => c = CTRL_V) (list_ascii_of_string value).
Proof.
  unfold paste_malfunction, join_chars, char_set.
  rewrite String.eqb_eq.
  change (String CTRL_V EmptyString) with (string_of_list_ascii [CTRL_V]).
  split.
  - intros H. apply string_of_list_ascii_inj, elements_one, list_to_set_all_one in H.
    destruct H as [Hne Hall]. split; [|exact Hall].
    intros ->. now apply Hne.
  - intros [Hne Hall]. f_equal. apply elements_one, list_to_set_all_one.
    split; [|exact Hall]. intros Hnil. apply Hne.
    rewrite <- (string_of_list_ascii_of_string value), Hnil. reflexivity.
Qed.

Section Runs.
Context {St E : Type}.
Implicit Types (env : Env St E) (s : St) (tr : list Event).

Ltac unfold_login :=
  unfold run, login, login_token_helper, sys_exit in *;
  unfold bind, call, update, emit, ret, raise, lift, Returned, Raised in *.

Ltac split_cases :=
  repeat match goal with
  | H : context [match ?x with _ => _ end] |- _ => destruct x eqn:?; simplify_eq
  | H : context [if ?b then _ else _] |- _ => destruct b eqn:?; simplify_eq
  end.

(** The token helper: whatever it returns, it shows the paste warning
    exactly when that value is a run of ^V characters; a token that was
    given is returned as it is, with no browser opened and nothing asked; a
    missing token is what the prompt gave. The state is never touched. *)
Theorem token_helper_warns_on_ctrl_v_only env value s s' tr v :
  run (login_token_helper env value) s = Some (s', tr, Returned v) ->
  s' = s
  /\ (In (Secho PASTE_WARNING (Some "yellow")) tr <->
      v <> EmptyString /\ Forall (fun c => c = CTRL_V) (list_ascii_of_string v))
  /\ (falsy value = false -> value = Some v /\ existsb is_prompt tr = false)
  /\ (falsy value = true -> click_prompt env TOKEN_PROMPT true s = Returned v).
Proof.
  intros H. rewrite <- paste_malfunction_spec.
  unfold_login. split_cases; simpl.
  all: repeat split; try discriminate; try tauto; try reflexivity.
  all: try (intros [Hf|[Hf|[Hf|[]]]]; discriminate).
  all: try (intros [[]|[]]; fail).
  all: try (intros [Hf|[]]; discriminate).
  all: try (intros []; fail).
  all: try (destruct value as [[|c v0]|]; simpl in *; simplify_eq; reflexivity).
Qed.

(** [login]: the command always ends by an exit or an exception. With
    [--check] nothing is asked and no browser opened, and the status is 0
    exactly when the client reports success; without it the status is 0
    whenever the client's [login] returns, whatever its message says. *)
Theorem login_exit_status env token check s s' tr r :
  run (login env token check) s = Some (s', tr, r) ->
  (forall u, r <> Returned u)
  /\ (forall code, r = Raised (SystemExit code) ->
        if check
        then existsb is_prompt tr = false /\ s' = s
             /\ exists success msg,
                  check_login_status env s = Returned (success, msg)
                  /\ tr = [Echo msg]
                  /\ code = (if success then 0 else 1)%Z
        else code = 0%Z
             /\ exists value msg,
                  client_login env value s = (s', Returned msg)
                  /\ last tr = Some (Echo msg)).
Proof.
  intros H. destruct check.
  - unfold_login. split_cases; split; try discriminate; intros code Hc; simplify_eq.
    all: destruct p as [success msg]; simpl in *; subst.
    all: repeat split; eauto.
  - unfold_login. split_cases; split; try discriminate; intros code Hc; simplify_eq.
    all: split; [reflexivity|]; do 2 eexists; split; [eassumption|].
    all: rewrite ?last_snoc; reflexivity.
Qed.

End Runs.

(** Two ^V characters given as the token: the warning is shown and the
    value handed on as it is. *)
Lemma token_helper_on_pasted_ctrl_v :
  let v := String CTRL_V (String CTRL_V EmptyString) in
  let tr := [Secho PASTE_WARNING (Some "yellow")] in
  ([] : list string) = []
  /\ (In (Secho PASTE_WARNING (Some "yellow")) tr <->
      v <> EmptyString /\ Forall (fun c => c = CTRL_V) (list_ascii_of_string v))
  /\ (falsy (Some v) = false -> Some v = Some v /\ existsb is_prompt tr = false)
  /\ (falsy (Some v) = true ->
      click_prompt (sample_env "secret") TOKEN_PROMPT true [] = Returned v).
Proof.
  cbv zeta.
  apply (token_helper_warns_on_ctrl_v_only (sample_env "secret")
           (Some (String CTRL_V (String CTRL_V EmptyString))) [] []).
  vm_compute. reflexivity.
Defined.

Lemma login_check_without_token :
  (forall u, Raised (E := Exc string) (A := unit) (SystemExit 1) <> Returned u)
  /\ (forall code, Raised (A := unit) (SystemExit (E := string) 1) = Raised (SystemExit code) ->
        existsb is_prompt [Echo "You are not logged in."] = false
        /\ ([] : list string) = []
        /\ exists success msg,
             check_login_status (sample_env "secret") [] = Returned (success, msg)
             /\ [Echo "You are not logged in."] = [Echo msg]
             /\ code = (if success then 0 else 1)%Z).
Proof.
  apply (login_exit_status (sample_env "secret") None true [] []
           [Echo "You are not logged in."] (Raised (SystemExit 1))).
  reflexivity.
Defined.

Example login_with_prompted_token :
  run (login (sample_env "secret") None false) [] =
    Some (["secret"],
          [Secho (BROWSER_MESSAGE "https://control.divio.com/token") None;
           LaunchUrl "https://control.divio.com/token";
           Prompt TOKEN_PROMPT true;
           Echo "Welcome."],
          Raised (SystemExit 0)).
Proof. vm_compute. reflexivity. Qed.

End LoginFacts.

Module UploadFacts.
Import Upload.

Section Runs.
Context {St : Type}.
Implicit Types (env : Env St) (s : St).

Ltac unfold_upload :=
  unfold guarded, unguarded, run, addon_validate, addon_upload, addon_register,
    boilerplate_validate, boilerplate_upload, as_click_exception, raised in *;
  unfold bind, ask, state_op, emit, ret, Returned, Raised in *.

Ltac upload_cases :=
  intros s s' tr r H; cbn [fst snd];
  first
    [ destruct (validate_addon _ _ s) as [?|[]] eqn:?
    | destruct (validate_boilerplate _ _ s) as [?|[]] eqn:?
    | destruct (upload_addon _ _ s) as [? [?|?]] eqn:?
    | destruct (upload_boilerplate _ _ _ s) as [? [?|?]] eqn:?
    | destruct (register_addon _ _ _ _ s) as [? [?|?]] eqn:? ];
  repeat match goal with e : exn |- _ => destruct e end;
  cbn in *; simplify_eq; cbn; eauto.

(** The addon and boilerplate commands that validate or upload turn a
    [DivioException] of their collaborator into a [ClickException] with the
    same message, and into a [TypeError] when the exception was raised with
    no argument or with several; no [DivioException] leaves them, any other
    exception leaves them unchanged, and the success line is shown only
    when the collaborator returned. [addon register] has no such clause: a
    [DivioException] of the client leaves it as it is. *)
Theorem divio_errors_leave_as_click_errors env path noinput package verbose organisation :
  guarded (fun s => (s, raised (validate_addon env path s)))
          (addon_validate env path)
  /\ guarded (fun s => ((upload_addon env path s).1, raised (upload_addon env path s).2))
             (addon_upload env path)
  /\ guarded (fun s => (s, raised (validate_boilerplate env path s)))
             (boilerplate_validate env path)
  /\ guarded (fun s => ((upload_boilerplate env path noinput s).1,
                        raised (upload_boilerplate env path noinput s).2))
             (boilerplate_upload env path noinput)
  /\ unguarded (fun s => ((register_addon env package verbose organisation s).1,
                          raised (register_addon env package verbose organisation s).2))
               (addon_register env package verbose organisation)
  /\ (forall cls message, surfaced (DivioException cls [message]) = ClickException message)
  /\ (forall cls args, length args <> 1%nat -> surfaced (DivioException cls args) = TypeError)
  /\ (forall e, is_divio e = false -> surfaced e = e)
  /\ (forall e, is_divio (surfaced e) = false).
Proof.
  repeat apply conj.
  - unfold_upload. upload_cases.
  - unfold_upload. upload_cases.
  - unfold_upload. upload_cases.
  - unfold_upload. upload_cases.
  - unfold_upload. upload_cases.
  - reflexivity.
  - intros cls [|a [|b args]] Hlen; try reflexivity. now contradict Hlen.
  - now intros [].
  - intros [cls [|a [|b args]]| | |]; reflexivity.
Qed.

End Runs.

Example addon_validate_rejects :
  run (addon_validate (sample_env ["setup.py is missing"]) "addons/blog") [] =
    Some ([], [], Raised (ClickException "setup.py is missing")).
Proof. reflexivity. Qed.

Example addon_validate_with_two_arguments :
  run (addon_validate (sample_env ["bad addon"; "details"]) "addons/blog") [] =
    Some ([], [], Raised TypeError).
Proof. reflexivity. Qed.

Example addon_validate_accepts :
  run (addon_validate (sample_env []) ".") [] =
    Some ([], [Echo "Addon is valid!"], Returned tt).
Proof. reflexivity. Qed.

End UploadFacts.

Module SetupFacts.
Import Process Setup.

Section Runs.
Context {St E : Type}.
Implicit Types (env : Env St E) (s : St) (tr : list Event).


End Runs.


Example setup_skipping_the_doctor :
  run (application_setup (sample_env false) None "my-site" "test" "." false true) [] =
    Some (["my-site"], [CreateWorkspace "my-site" "test" "." false None], Returned tt).
Proof. reflexivity. Qed.

End SetupFacts.

Module DoctorFacts.
Import Process Cli Doctor.

Lemma split_on_cons sep s : exists piece pieces, split_on sep s = piece :: pieces.
Proof.
  destruct s as [|c rest]; cbn; eauto.
  destruct (Ascii.eqb c sep); eauto.
  destruct (split_on sep rest); eauto.
Qed.

Lemma join_with_cons sep piece next pieces :
  join_with sep (piece :: next :: pieces) =
    piece +:+ String sep (join_with sep (next :: pieces)).
Proof. reflexivity. Qed.

Lemma join_split sep s : join_with sep (split_on sep s) = s.
Proof.
  induction s as [|c rest IH]; [reflexivity|].
  cbn [split_on]. destruct (Ascii.eqb_spec c sep) as [-> | Hne].
  - destruct (split_on_cons sep rest) as (piece & pieces & Heq).
    rewrite Heq in *. rewrite join_with_cons, IH. reflexivity.
  - destruct (split_on_cons sep rest) as (piece & pieces & Heq).
    rewrite Heq in *. destruct pieces as [|next pieces].
    + cbn in *. congruence.
    + rewrite join_with_cons in *. rewrite <- IH. reflexivity.
Qed.

Lemma split_pieces_without_sep sep s :
  List.Forall (fun piece => contains sep piece = false) (split_on sep s).
Proof.
  induction s as [|c rest IH]; cbn [split_on].
  - repeat constructor.
  - destruct (Ascii.eqb c sep) eqn:Hc.
    + constructor; [reflexivity | exact IH].
    + destruct (split_on sep rest) as [|piece pieces].
      * repeat constructor. cbn. rewrite Hc. reflexivity.
      * inversion IH; subst. constructor; [|assumption].
        cbn. rewrite Hc. assumption.
Qed.

(** How [--checks] is read: absent it selects nothing in particular, given
    empty it is passed on as the empty text and not as a list, and otherwise
    it is cut at the commas: the names, joined by commas again, are the
    option's text, there is at least one, and none holds a comma. *)
Theorem checks_are_cut_at_commas (checks : option string) :
  match selected checks with
  | NoChecks => checks = None
  | EmptyChecks => checks = Some EmptyString
  | CheckList names =>
      checks = Some (join_with "," names)
      /\ names <> []
      /\ join_with "," names <> EmptyString
      /\ List.Forall (fun name => contains "," name = false) names
  end.
Proof.
  destruct checks as [text|]; cbn; [|reflexivity].
  destruct text as [|c rest]; [reflexivity|].
  cbn [is_empty]. repeat split.
  - now rewrite join_split.
  - destruct (split_on_cons "," (String c rest)) as (? & ? & ->). discriminate.
  - rewrite join_split. discriminate.
  - apply split_pieces_without_sep.
Qed.

Lemma dict_get_set key value k d :
  dict_get k (dict_set key value d) =
    if String.eqb key k then Some value else dict_get k d.
Proof.
  induction d as [|[k0 v0] rest IH]; cbn.
  - reflexivity.
  - destruct (String.eqb_spec k0 key) as [-> | Hne]; cbn.
    + destruct (String.eqb_spec key k); reflexivity.
    + destruct (String.eqb_spec k0 k) as [-> | Hne']; [|exact IH].
      destruct (String.eqb_spec key k); congruence.
Qed.

Lemma keys_dict_set key value d :
  keys (dict_set key value d) =
    if existsb (String.eqb key) (keys d) then keys d else keys d ++ [key].
Proof.
  induction d as [|[k0 v0] rest IH]; cbn; [reflexivity|].
  rewrite (String.eqb_sym key k0).
  destruct (String.eqb k0 key); cbn; [reflexivity|].
  unfold keys in *. rewrite IH.
  destruct (existsb (String.eqb key) (map fst rest)); reflexivity.
Qed.

Lemma in_keys_dict_set k key value d :
  In k (keys (dict_set key value d)) <-> k = key \/ In k (keys d).
Proof.
  induction d as [|[k0 v0] rest IH]; cbn.
  - intuition congruence.
  - destruct (String.eqb_spec k0 key) as [-> | Hne]; cbn.
    + intuition congruence.
    + unfold keys in IH. rewrite IH. intuition congruence.
Qed.

Lemma nodup_dict_set key value d :
  List.NoDup (keys d) -> List.NoDup (keys (dict_set key value d)).
Proof.
  induction d as [|[k0 v0] rest IH]; cbn; intros Hd.
  - constructor; [intros []|constructor].
  - destruct (String.eqb_spec k0 key) as [-> | Hne]; cbn; [exact Hd|].
    inversion Hd as [|? ? Hnotin Hrest]; subst.
    constructor; [|exact (IH Hrest)].
    intros Hin. apply (in_keys_dict_set k0 key value rest) in Hin.
    destruct Hin as [-> | Hin]; [congruence | exact (Hnotin Hin)].
Qed.

Lemma dict_get_in k v d :
  List.NoDup (keys d) -> In (k, v) d <-> dict_get k d = Some v.
Proof.
  induction d as [|[k0 v0] rest IH]; cbn; intros Hd.
  - split; [intros [] | discriminate].
  - inversion Hd as [|? ? Hnotin Hrest]; subst.
    destruct (String.eqb_spec k0 k) as [-> | Hne].
    + split; [|intros [= ->]; now left].
      intros [[= ->] | Hin]; [reflexivity|].
      exfalso. apply Hnotin. change k with (fst (k, v)). now apply List.in_map.
    + rewrite <- (IH Hrest). split; [|now right].
      intros [[= -> ->] | Hin]; [congruence | exact Hin].
Qed.

Lemma errors_of_snoc found item :
  errors_of (found ++ [item]) = dict_set item.1.1 item.2 (errors_of found).
Proof. unfold errors_of. now rewrite List.fold_left_app. Qed.

Lemma nodup_errors_of found : List.NoDup (keys (errors_of found)).
Proof.
  induction found as [|item found IH] using List.rev_ind.
  - constructor.
  - rewrite errors_of_snoc. now apply nodup_dict_set.
Qed.

(** The dictionary of errors holds, under each name, what was reported
    last under it. *)
Lemma dict_get_errors_of check found :
  dict_get check (errors_of found) = last_reported check found.
Proof.
  induction found as [|item found IH] using List.rev_ind; [reflexivity|].
  rewrite errors_of_snoc, dict_get_set. unfold last_reported.
  rewrite List.rev_app_distr. cbn.
  destruct (String.eqb item.1.1 check); [reflexivity | exact IH].
Qed.

Lemma truthy_spec error :
  truthy error = true <-> exists message, error = Some message /\ message <> EmptyString.
Proof.
  destruct error as [[|c rest]|]; cbn; split; try discriminate.
  - intros (message & [= <-] & Hne). congruence.
  - intros _. eexists; split; [reflexivity | discriminate].
  - reflexivity.
  - intros (message & [=] & _).
Qed.

Lemma any_error_last_reported found :
  any_error (errors_of found) = true <->
  exists check message,
    last_reported check found = Some (Some message) /\ message <> EmptyString.
Proof.
  unfold any_error. rewrite List.existsb_exists. split.
  - intros ([k v] & Hin & Htruthy). cbn in Htruthy.
    apply truthy_spec in Htruthy as (message & -> & Hne).
    exists k, message. split; [|exact Hne].
    rewrite <- dict_get_errors_of.
    now apply dict_get_in; [apply nodup_errors_of|].
  - intros (check & message & Hlast & Hne).
    rewrite <- dict_get_errors_of in Hlast.
    apply dict_get_in in Hlast; [|apply nodup_errors_of].
    exists (check, Some message). split; [exact Hlast|].
    apply truthy_spec. eauto.
Qed.

Section Runs.
Context {St E : Type}.
Implicit Types (env : Env St E) (s : St) (tr : list Event).

(** [doctor] always ends the process and leaves the state as it was.  With
    [--machine-readable] it prints the dictionary of errors without a final
    newline and exits with 1 exactly when some check's last reported error
    is a non-empty message, with 0 otherwise: an error that a later report
    under the same name replaces does not count.  Without the flag it
    announces the verification and exits with 0 exactly when the check
    passed. *)
Theorem doctor_exit_status env machine_readable checks s s' tr r :
  run (doctor env machine_readable checks) s = Some (s', tr, r) ->
  s' = s
  /\ (forall u, r <> Returned u)
  /\ (forall code, r = Raised (SystemExit code) ->
        if machine_readable then
          exists found,
            check_requirements env (selected checks) s = Returned found
            /\ tr = [Echo (dumps env (errors_of found)) false]
            /\ ((code = 1%Z
                 /\ exists check message,
                      last_reported check found = Some (Some message)
                      /\ message <> EmptyString)
                \/ (code = 0%Z
                    /\ forall check message,
                         last_reported check found = Some (Some message) ->
                         message = EmptyString))
        else
          tr = [Echo "Verifying your system setup..." true]
          /\ exists ok,
               check_requirements_human env (selected checks) s = Returned ok
               /\ code = (if ok then 0%Z else 1%Z)).
Proof.
  unfold run, doctor, sys_exit.
  unfold bind, call, emit, ret, raise, lift, Returned, Raised.
  intros H. destruct machine_readable; cbn in H.
  - destruct (check_requirements env (selected checks) s) as [e|found] eqn:Hfound;
      cbn in H; simplify_eq; (split; [reflexivity|]); (split; [discriminate|]);
      intros code [=]; subst.
    exists found. split; [reflexivity|]. split; [reflexivity|].
    destruct (any_error (errors_of found)) eqn:Hany.
    + left. split; [reflexivity|]. now apply any_error_last_reported.
    + right. split; [reflexivity|]. intros check message Hlast.
      destruct message as [|c rest]; [reflexivity|]. exfalso.
      assert (any_error (errors_of found) = true) as Hyes; [|congruence].
      apply any_error_last_reported. exists check, (String c rest).
      split; [exact Hlast | discriminate].
  - destruct (check_requirements_human env (selected checks) s) as [e|ok] eqn:Hok;
      cbn in H; simplify_eq; (split; [reflexivity|]); (split; [discriminate|]);
      intros code [=]; subst.
    split; [reflexivity|]. exists ok. split; [reflexivity|]. reflexivity.
Qed.

End Runs.

Lemma doctor_on_a_replaced_error :
  tt = tt
  /\ (forall u, Raised (A := unit) (SystemExit (E := string) 1) <> Returned u)
  /\ (forall code, Raised (A := unit) (SystemExit (E := string) 1) = Raised (SystemExit code) ->
        exists found,
          check_requirements sample_env (selected (Some "docker-server,git")) tt =
            Returned found
          /\ [Echo "docker-server,git" false] =
             [Echo (dumps sample_env (errors_of found)) false]
          /\ ((code = 1%Z
               /\ exists check message,
                    last_reported check found = Some (Some message)
                    /\ message <> EmptyString)
              \/ (code = 0%Z
                  /\ forall check message,
                       last_reported check found = Some (Some message) ->
                       message = EmptyString))).
Proof.
  apply (doctor_exit_status sample_env true (Some "docker-server,git") tt tt
           [Echo "docker-server,git" false] (Raised (SystemExit 1))).
  reflexivity.
Defined.

Example docker_server_error_is_replaced :
  errors_of [("docker-server", "Docker server", Some "not running");
             ("git", "Git", Some "not found");
             ("docker-server", "Docker server", None)] =
    [("docker-server", None); ("git", Some "not found")].
Proof. reflexivity. Qed.

Example checks_of_two_names :
  selected (Some "docker-server,git") = CheckList ["docker-server"; "git"].
Proof. reflexivity. Qed.

End DoctorFacts.

Module ListingFacts.
Import Listing.

(** *** Dictionaries *)

Lemma get_set_item key value k d :
  get_item k (set_item key value d) =
    if Z.eqb key k then Some value else get_item k d.
Proof.
  induction d as [|[k0 v0] rest IH]; cbn; [reflexivity|].
  destruct (Z.eqb_spec k0 key) as [-> | Hne]; cbn.
  - destruct (Z.eqb_spec key k); reflexivity.
  - destruct (Z.eqb_spec k0 k) as [-> | Hne']; [|exact IH].
    destruct (Z.eqb_spec key k); congruence.
Qed.

Lemma users_of_snoc accounts account :
  users_of (accounts ++ [account]) =
    if String.eqb (account_type account) "user"
    then set_item (account_id account)
           {| name := "Personal"; applications := [] |} (users_of accounts)
    else users_of accounts.
Proof. unfold users_of. now rewrite List.fold_left_app. Qed.

Lemma organisations_of_snoc accounts account :
  organisations_of (accounts ++ [account]) =
    if String.eqb (account_type account) "organisation"
    then set_item (account_id account)
           {| name := account_name account; applications := [] |}
           (organisations_of accounts)
    else organisations_of accounts.
Proof. unfold organisations_of. now rewrite List.fold_left_app. Qed.

Lemma get_users_of accounts k :
  get_item k (users_of accounts) =
    if existsb (fun account =>
                  String.eqb (account_type account) "user"
                  && Z.eqb (account_id account) k) accounts
    then Some {| name := "Personal"; applications := [] |}
    else None.
Proof.
  induction accounts as [|account accounts IH] using List.rev_ind; [reflexivity|].
  rewrite users_of_snoc, List.existsb_app. cbn.
  destruct (String.eqb (account_type account) "user"); cbn.
  - rewrite get_set_item, IH.
    destruct (Z.eqb (account_id account) k), (existsb _ accounts); reflexivity.
  - rewrite IH. destruct (existsb _ accounts); reflexivity.
Qed.

Lemma get_organisations_of accounts k :
  get_item k (organisations_of accounts) =
    option_map (fun account => {| name := account_name account; applications := [] |})
      (find (fun account =>
               String.eqb (account_type account) "organisation"
               && Z.eqb (account_id account) k) (rev accounts)).
Proof.
  induction accounts as [|account accounts IH] using List.rev_ind; [reflexivity|].
  rewrite organisations_of_snoc, List.rev_app_distr. cbn.
  destruct (String.eqb (account_type account) "organisation"); cbn; [|exact IH].
  rewrite get_set_item. destruct (Z.eqb (account_id account) k); [reflexivity | exact IH].
Qed.

Lemma find_rev_some {A} (f : A -> bool) (l : list A) :
  is_Some (find f (rev l)) <-> existsb f l = true.
Proof.
  rewrite List.existsb_exists. split.
  - intros [x Hx]. apply List.find_some in Hx as [Hin Hf].
    exists x. split; [now apply List.in_rev | exact Hf].
  - intros (x & Hin & Hf).
    destruct (find f (rev l)) eqn:Hfind; [eauto|].
    apply List.find_none with (x := x) in Hfind; [congruence|].
    now apply List.in_rev in Hin.
Qed.

Lemma no_applications_yet (d : Dict) :
  List.Forall (fun item => applications item.2 = []) d -> with_account_name d = [].
Proof.
  induction 1 as [|[k data] rest Hdata _ IH]; [reflexivity|].
  unfold with_account_name in *. cbn in *. rewrite Hdata. exact IH.
Qed.

Lemma set_item_forall (Q : Z * Group -> Prop) key value d :
  (forall k, Q (k, value)) -> List.Forall Q d -> List.Forall Q (set_item key value d).
Proof.
  intros Hvalue. induction 1 as [|[k data] rest Hdata Hrest IH]; cbn.
  - repeat constructor. apply Hvalue.
  - destruct (Z.eqb k key); constructor; auto.
Qed.

Lemma users_of_empty accounts :
  List.Forall (fun item => applications item.2 = []) (users_of accounts).
Proof.
  induction accounts as [|account accounts IH] using List.rev_ind; [constructor|].
  rewrite users_of_snoc. destruct (String.eqb _ _); [|exact IH].
  now apply set_item_forall.
Qed.

Lemma organisations_of_empty accounts :
  List.Forall (fun item => applications item.2 = []) (organisations_of accounts).
Proof.
  induction accounts as [|account accounts IH] using List.rev_ind; [constructor|].
  rewrite organisations_of_snoc. destruct (String.eqb _ _); [|exact IH].
  now apply set_item_forall.
Qed.

Lemma with_account_name_app d1 d2 :
  with_account_name (d1 ++ d2) = with_account_name d1 ++ with_account_name d2.
Proof. unfold with_account_name. now rewrite List.flat_map_app. Qed.

Lemma groups_of_empty accounts : with_account_name (chain (groups_of accounts)) = [].
Proof.
  unfold chain, groups_of. cbn. rewrite with_account_name_app.
  rewrite !no_applications_yet; auto using users_of_empty, organisations_of_empty.
Qed.

(** *** Filing a website *)

Lemma append_to_some key row d d' :
  append_to key row d = Some d' ->
  exists data,
    get_item key d = Some data
    /\ with_account_name d' ≡ₚ (row ++ [name data]) :: with_account_name d
    /\ forall k, name_at d' k = name_at d k.
Proof.
  revert d'. induction d as [|[k0 data0] rest IH]; cbn; intros d' H; [discriminate|].
  destruct (Z.eqb_spec k0 key) as [-> | Hne].
  - injection H as <-. exists data0. split; [reflexivity|]. split.
    + cbn. rewrite List.map_app. cbn.
      rewrite <- List.app_assoc. cbn.
      symmetry. apply Permutation_middle.
    + intros k. unfold name_at. cbn. destruct (Z.eqb key k); reflexivity.
  - destruct (append_to key row rest) as [rest'|] eqn:Hrest; [|discriminate].
    injection H as <-. destruct (IH rest' eq_refl) as (data & Hget & Hperm & Hnames).
    exists data. split; [exact Hget|]. split.
    + cbn. rewrite Hperm.
      change ((row ++ [name data]) :: with_account_name rest)
        with ([row ++ [name data]] ++ with_account_name rest).
      rewrite (Permutation_app_swap_app _ [row ++ [name data]]). reflexivity.
    + intros k. unfold name_at in *. cbn. destruct (Z.eqb k0 k); [reflexivity|].
      apply Hnames.
Qed.

Lemma append_to_none key row d : append_to key row d = None -> get_item key d = None.
Proof.
  induction d as [|[k0 data0] rest IH]; cbn; [reflexivity|].
  destruct (Z.eqb k0 key); [discriminate|].
  destruct (append_to key row rest); [discriminate|]. auto.
Qed.

Lemma place_returns groups website groups' :
  place groups website = Returned groups' ->
  exists owner,
    owner_group groups website = Some owner
    /\ with_account_name (chain groups') ≡ₚ
         (row_of website ++ [owner]) :: with_account_name (chain groups)
    /\ (forall w, owner_group groups' w = owner_group groups w).
Proof.
  unfold place, owner_group, chain, Returned, Raised.
  destruct (organisation_id website) as [id|]; cbn;
    [destruct (Z.eqb id 0); cbn|];
    match goal with
    | |- context [append_to ?k ?r ?d] =>
        destruct (append_to k r d) as [d'|] eqn:Happend; [|discriminate]
    end;
    intros [= <-]; cbn;
    destruct (append_to_some _ _ _ _ Happend) as (data & Hget & Hperm & Hnames);
    exists (name data); (split; [unfold name_at; now rewrite Hget|]);
    rewrite !with_account_name_app.
  - split; [now rewrite Hperm|].
    intros w. destruct (truthy _); [reflexivity | apply Hnames].
  - split; [|intros w; destruct (truthy _); [apply Hnames | reflexivity]].
    rewrite Hperm.
    change ((row_of website ++ [name data]) :: with_account_name (organisations groups))
      with ([row_of website ++ [name data]] ++ with_account_name (organisations groups)).
    rewrite (Permutation_app_swap_app _ [row_of website ++ [name data]]). reflexivity.
  - split; [now rewrite Hperm|].
    intros w. destruct (truthy _); [reflexivity | apply Hnames].
Qed.

Lemma place_raises groups website key :
  place groups website = Raised key ->
  owner_group groups website = None /\ key = owner_key website.
Proof.
  unfold place, owner_group, owner_key, Returned, Raised.
  destruct (organisation_id website) as [id|]; cbn;
    [destruct (Z.eqb id 0); cbn|];
    match goal with
    | |- context [append_to ?k ?r ?d] =>
        destruct (append_to k r d) as [d'|] eqn:Happend; [discriminate|]
    end;
    intros [= <-]; apply append_to_none in Happend;
    unfold name_at; now rewrite Happend.
Qed.

Lemma sort_into_returns websites : forall groups groups',
  sort_into groups websites = Returned groups' ->
  List.Forall (fun w => is_Some (owner_group groups w)) websites
  /\ with_account_name (chain groups') ≡ₚ
       with_account_name (chain groups)
       ++ map (fun w => row_of w ++ [default EmptyString (owner_group groups w)]) websites.
Proof.
  induction websites as [|website rest IH]; cbn; intros groups groups' H.
  - injection H as <-. split; [constructor|]. now rewrite List.app_nil_r.
  - destruct (place groups website) as [key|groups1] eqn:Hplace; [discriminate|].
    destruct (place_returns _ _ _ Hplace) as (owner & Howner & Hperm & Hsame).
    destruct (IH _ _ H) as [Hall Hrows]. split.
    + constructor; [rewrite Howner; eauto|].
      eapply List.Forall_impl; [|exact Hall]. cbn. intros w. now rewrite Hsame.
    + rewrite Hrows, Hperm, Howner. cbn.
      rewrite (List.map_ext _ (fun w => row_of w ++ [default EmptyString (owner_group groups w)]));
        [|intros w; now rewrite Hsame].
      apply Permutation_middle.
Qed.

Lemma find_pointwise {A} (f g : A -> bool) (l : list A) :
  (forall x, f x = g x) -> find f l = find g l.
Proof.
  intros Hfg. induction l as [|x l IH]; cbn; [reflexivity|].
  now rewrite Hfg, IH.
Qed.

Lemma sort_into_outcome websites : forall groups,
  match find (fun w => match owner_group groups w with
                       | None => true
                       | Some _ => false
                       end) websites with
  | Some website => sort_into groups websites = Raised (owner_key website)
  | None => exists groups', sort_into groups websites = Returned groups'
  end.
Proof.
  induction websites as [|website rest IH]; cbn [find sort_into]; intros groups; [eauto|].
  destruct (place groups website) as [key|groups1] eqn:Hplace.
  - apply place_raises in Hplace as [Hnone ->]. rewrite Hnone. reflexivity.
  - destruct (place_returns _ _ _ Hplace) as (owner & Howner & _ & Hsame).
    rewrite Howner. specialize (IH groups1).
    erewrite find_pointwise in IH; [exact IH|].
    intros w. cbn. now rewrite Hsame.
Qed.

Lemma owner_group_of_response response website :
  owner_group (groups_of (accounts response)) website =
    if owner_listed response website
    then Some (owner_name response website) else None.
Proof.
  unfold owner_group, owner_listed, owner_name, name_at, groups_of. cbn.
  destruct (truthy (organisation_id website)).
  - rewrite get_organisations_of.
    pose proof (find_rev_some
      (fun account =>
         String.eqb (account_type account) "organisation"
         && Z.eqb (account_id account) (default 0%Z (organisation_id website)))
      (accounts response)) as Hfind.
    destruct (find _ (rev (accounts response))) as [account|]; cbn.
    + rewrite (proj1 Hfind) by eauto. reflexivity.
    + destruct (existsb _ (accounts response)); [|reflexivity].
      destruct (proj2 Hfind eq_refl) as [? [=]].
  - rewrite get_users_of. destruct (existsb _ (accounts response)); reflexivity.
Qed.

(** *** Sorting *)

Lemma insert_row_perm x l : insert_row x l ≡ₚ x :: l.
Proof.
  induction l as [|y rest IH]; cbn; [reflexivity|].
  destruct (String.ltb _ _); [|reflexivity].
  rewrite IH. apply Permutation_swap.
Qed.

Lemma sort_applications_perm l : sort_applications l ≡ₚ l.
Proof.
  induction l as [|x rest IH]; cbn; [reflexivity|].
  now rewrite insert_row_perm, IH.
Qed.

Lemma ltb_asym a b : String.ltb a b = true -> String.ltb b a = false.
Proof.
  unfold String.ltb. rewrite (String.compare_antisym b a).
  destruct (String.compare a b); cbn; congruence.
Qed.

Lemma insert_row_sorted x l : Sorted in_order l -> Sorted in_order (insert_row x l).
Proof.
  induction l as [|y rest IH]; cbn; intros Hl.
  - repeat constructor.
  - inversion Hl as [|? ? Hrest Hhd]; subst.
    destruct (String.ltb (sort_key y) (sort_key x)) eqn:Hyx.
    + constructor; [auto|].
      destruct rest as [|z rest]; cbn.
      * constructor. now apply ltb_asym.
      * inversion Hhd; subst.
        destruct (String.ltb (sort_key z) (sort_key x)); constructor;
          [assumption | now apply ltb_asym].
    + constructor; [exact Hl|]. constructor. exact Hyx.
Qed.

Lemma sort_applications_sorted l : Sorted in_order (sort_applications l).
Proof.
  induction l as [|x rest IH]; cbn; [constructor|].
  now apply insert_row_sorted.
Qed.

Lemma perm_of_eq {A} (l k : list A) : l = k -> l ≡ₚ k.
Proof. now intros ->. Qed.

Lemma removelast_with_account_name (accounts : list (Z * Group)) :
  map (@removelast string) (with_account_name accounts) = flat_map (fun item => applications item.2) accounts.
Proof.
  unfold with_account_name. induction accounts as [|[k data] rest IH]; [reflexivity|].
  cbn. rewrite List.map_app, IH. f_equal.
  rewrite List.map_map. rewrite <- (List.map_id (applications data)) at 2.
  apply List.map_ext. intros each. apply List.removelast_last.
Qed.

Section Runs.
Context {C E : Type}.
Implicit Types (env : Env C E) (obj : Obj C) (response : Applications).

Lemma filed_rows response groups :
  sort_into (groups_of (accounts response)) (websites response) = Returned groups ->
  with_account_name (chain groups) ≡ₚ
    map (fun w => row_of w ++ [owner_name response w]) (websites response).
Proof.
  intros Hsort. apply sort_into_returns in Hsort as [Hall Hrows].
  rewrite Hrows, groups_of_empty. cbn.
  apply perm_of_eq, List.map_ext_in. intros w Hin.
  rewrite List.Forall_forall in Hall. specialize (Hall w Hin).
  rewrite owner_group_of_response in *.
  destruct (owner_listed response w); [reflexivity | destruct Hall as [? [=]]].
Qed.

Lemma all_listed_returns response :
  forallb (owner_listed response) (websites response) = true ->
  exists groups,
    sort_into (groups_of (accounts response)) (websites response) = Returned groups.
Proof.
  intros Hall.
  pose proof (sort_into_outcome (websites response) (groups_of (accounts response))) as H.
  destruct (find _ (websites response)) as [website|] eqn:Hfind; [|exact H].
  apply List.find_some in Hfind as [Hin Hnone].
  rewrite List.forallb_forall in Hall. specialize (Hall _ Hin).
  rewrite owner_group_of_response, Hall in Hnone. discriminate.
Qed.

(** Without [--json] and [--grouped], when every application's owner is
    among the accounts, [app list] shows one table and returns: each
    application has exactly one row in it (id, slug, name and the name of
    its owner, "Personal" for a user), and the rows are in the order of
    their ids taken as lower-cased text.  The content is shown with the
    pager exactly when [--pager] was given. *)
Theorem every_application_is_listed_once env pager_ obj response :
  get_applications env (client obj) = Returned response ->
  forallb (owner_listed response) (websites response) = true ->
  exists rows,
    run (application_list env false pager_ false) obj =
      Some ({| pager := pager_; client := client obj |},
            [EchoLargeContent (table env rows HEADER) pager_],
            Returned tt)
    /\ rows ≡ₚ map (fun w => row_of w ++ [owner_name response w]) (websites response)
    /\ Sorted in_order rows.
Proof.
  intros Hget Hall. destruct (all_listed_returns _ Hall) as [groups Hsort].
  exists (sort_applications (with_account_name (chain groups))). split; [|split].
  - unfold run, application_list, bind, modify, ask, emit. cbn.
    rewrite Hget. cbn. rewrite Hsort. reflexivity.
  - rewrite sort_applications_perm. now apply filed_rows.
  - apply sort_applications_sorted.
Qed.

(** An application whose owner is not among the accounts (an organisation
    id with no account of type "organisation", or an owner id with no
    account of type "user") fails the listing with a [KeyError] of that id
    before anything is shown, grouped or not; with [--json] the response is
    printed all the same. *)
Theorem missing_owner_is_a_key_error env grouped pager_ obj response website :
  get_applications env (client obj) = Returned response ->
  find (fun w => negb (owner_listed response w)) (websites response) = Some website ->
  run (application_list env grouped pager_ false) obj =
    Some ({| pager := pager_; client := client obj |}, [],
          Raised (KeyError (owner_key website)))
  /\ run (application_list env grouped pager_ true) obj =
       Some ({| pager := pager_; client := client obj |},
             [Echo (dumps env response)], Returned tt).
Proof.
  intros Hget Hfind. split.
  - pose proof (sort_into_outcome (websites response) (groups_of (accounts response))) as H.
    erewrite find_pointwise in H.
    + rewrite Hfind in H.
      unfold run, application_list, bind, modify, ask, emit. cbn.
      rewrite Hget. cbn. rewrite H. reflexivity.
    + intros w. cbn. rewrite owner_group_of_response.
      destruct (owner_listed response w); reflexivity.
  - unfold run, application_list, bind, modify, ask, emit. cbn.
    rewrite Hget. reflexivity.
Qed.

Lemma output_items_sections env (accounts : list (Z * Group)) :
  exists groups,
    output_items env accounts = map (section env) groups
    /\ List.Forall (fun g => applications g <> []) groups
    /\ flat_map applications groups = flat_map (fun item => applications item.2) accounts
    /\ (forall g, In g groups -> In g (map snd accounts)).
Proof.
  induction accounts as [|[k data] rest (groups & Hitems & Hfull & Hflat & Hin)].
  - exists []. repeat split; [constructor | intros ? []].
  - unfold output_items in *. cbn.
    destruct (applications data) as [|row rows] eqn:Hdata.
    + exists groups. repeat split; auto.
    + exists (data :: groups). cbn. rewrite Hitems, Hflat, Hdata. repeat split.
      * constructor; [congruence | exact Hfull].
      * intros g [<- | Hg]; auto.
Qed.


End Runs.

Lemma sample_listing :
  exists rows,
    run (application_list (sample_env sample_response) false true false)
        {| pager := false; client := tt |} =
      Some ({| pager := true; client := tt |},
            [EchoLargeContent (sample_table rows HEADER) true], Returned tt)
    /\ rows ≡ₚ map (fun w => row_of w ++ [owner_name sample_response w])
                   (websites sample_response)
    /\ Sorted in_order rows.
Proof.
  apply (every_application_is_listed_once (sample_env sample_response) true
           {| pager := false; client := tt |} sample_response);
    reflexivity.
Defined.

Lemma orphan_listing :
  run (application_list (sample_env orphan_response) true false false)
      {| pager := true; client := tt |} =
    Some ({| pager := false; client := tt |}, [],
          Raised (KeyError (owner_key
                              {| website_id := 10; organisation_id := Some 3%Z;
                                 owner_id := 7; domain := "shop";
                                 website_name := "Shop" |})))
  /\ run (application_list (sample_env orphan_response) true false true)
         {| pager := true; client := tt |} =
       Some ({| pager := false; client := tt |},
             [Echo (dumps (sample_env orphan_response) orphan_response)], Returned tt).
Proof.
  apply (missing_owner_is_a_key_error (sample_env orphan_response) true false
           {| pager := true; client := tt |} orphan_response);
    reflexivity.
Defined.


Example sample_sections_shown :
  run (application_list (sample_env sample_response) true false false)
      {| pager := false; client := tt |} =
    Some ({| pager := false; client := tt |},
          [EchoLargeContent
             ("Personal" +:+ LF +:+ "========" +:+ LF +:+ LF
              +:+ "ID Slug Name" +:+ LF +:+ "9 blog Blog" +:+ LF +:+ LF +:+ LF
              +:+ "Acme" +:+ LF +:+ "====" +:+ LF +:+ LF
              +:+ "ID Slug Name" +:+ LF +:+ "10 shop Shop" +:+ LF +:+ "12 docs Docs")
             false],
          Returned tt).
Proof. reflexivity. Qed.

Example sample_listing_rows :
  run (application_list (sample_env sample_response) false true false)
      {| pager := false; client := tt |} =
    Some ({| pager := true; client := tt |},
          [EchoLargeContent
             (sample_table [["10"; "shop"; "Shop"; "Acme"];
                            ["12"; "docs"; "Docs"; "Acme"];
                            ["9"; "blog"; "Blog"; "Personal"]] HEADER) true],
          Returned tt).
Proof. reflexivity. Qed.

End ListingFacts.

Module EnvVarsFacts.
Import Cli Listing EnvVars.

Lemma append_cons (c : ascii) (a b : string) : String c a +:+ b = String c (a +:+ b).
Proof. reflexivity. Qed.

Lemma append_empty_r (s : string) : s +:+ EmptyString = s.
Proof.
  induction s as [|c s IH]; [reflexivity|]. rewrite append_cons. congruence.
Qed.

Lemma append_assoc (a b c : string) : (a +:+ b) +:+ c = a +:+ (b +:+ c).
Proof.
  induction a as [|x a IH]; [reflexivity|]. rewrite !append_cons. congruence.
Qed.

Lemma concat_empty_cons (x : string) (l : list string) :
  String.concat EmptyString (x :: l) = x +:+ String.concat EmptyString l.
Proof. destruct l; cbn; [now rewrite append_empty_r | reflexivity]. Qed.

Lemma concat_empty_snoc (l : list string) (x : string) :
  String.concat EmptyString (l ++ [x]) = String.concat EmptyString l +:+ x.
Proof.
  induction l as [|y l IH]; [reflexivity|].
  change ((y :: l) ++ [x]) with (y :: (l ++ [x])).
  now rewrite !concat_empty_cons, IH, append_assoc.
Qed.

Lemma first_named_some name vars v :
  first_named name vars = Some v -> In v vars /\ var_name v = name.
Proof.
  induction vars as [|x vars IH]; cbn; [discriminate|].
  destruct (String.eqb_spec (var_name x) name) as [Heq | Hne].
  - intros [= <-]. auto.
  - intros H. destruct (IH H). auto.
Qed.

Lemma first_named_none name vars :
  first_named name vars = None <-> forall v, In v vars -> var_name v <> name.
Proof.
  induction vars as [|x vars IH]; cbn.
  - split; [intros _ ? [] | reflexivity].
  - destruct (String.eqb_spec (var_name x) name) as [Heq | Hne].
    + split; [discriminate|]. intros H. destruct (H x); auto.
    + rewrite IH. split.
      * intros H v [<- | Hv]; auto.
      * intros H v Hv. apply H. auto.
Qed.

Lemma selected_snoc name results block :
  selected name (results ++ [block]) =
    match first_named name (variables block) with
    | Some v => selected name results ++ [entry block v]
    | None => selected name results
    end.
Proof. unfold selected. now rewrite List.fold_left_app. Qed.

Lemma selected_cons name block results :
  selected name (block :: results) =
    match first_named name (variables block) with
    | Some v => entry block v :: selected name results
    | None => selected name results
    end.
Proof.
  induction results as [|last results IH] using List.rev_ind.
  - cbn. destruct (first_named _ _); reflexivity.
  - change (block :: results ++ [last]) with ((block :: results) ++ [last]).
    rewrite !selected_snoc, IH.
    destruct (first_named name (variables block)), (first_named name (variables last));
      reflexivity.
Qed.

Lemma in_selected name results shown :
  In shown (selected name results) <->
  exists block v,
    In block results /\ first_named name (variables block) = Some v
    /\ shown = entry block v.
Proof.
  induction results as [|block results IH].
  - cbn. split; [intros [] | intros (? & ? & [] & _)].
  - rewrite selected_cons. split.
    + destruct (first_named name (variables block)) as [v|] eqn:Hfirst.
      * intros [<- | Hin].
        -- exists block, v. cbn. auto.
        -- apply IH in Hin as (b & v' & ? & ? & ?). exists b, v'. cbn. auto.
      * intros Hin. apply IH in Hin as (b & v' & ? & ? & ?). exists b, v'. cbn. auto.
    + intros (b & v & [<- | Hb] & Hfirst & ->).
      * rewrite Hfirst. now left.
      * assert (In (entry b v) (selected name results)) as Hin by (apply IH; eauto).
        destruct (first_named name (variables block)); [now right | exact Hin].
Qed.

Lemma selected_nil name results :
  selected name results = [] <->
  forall block v, In block results -> In v (variables block) -> var_name v <> name.
Proof.
  split.
  - intros Hnil block v Hblock Hv.
    destruct (first_named name (variables block)) as [v'|] eqn:Hfirst.
    + assert (In (entry block v') (selected name results)) as Hin
        by (apply in_selected; eauto).
      rewrite Hnil in Hin. destruct Hin.
    + now apply (proj1 (first_named_none _ _) Hfirst).
  - intros Hnone. destruct (selected name results) as [|shown rest] eqn:Hsel; [reflexivity|].
    assert (In shown (selected name results)) as Hin by (rewrite Hsel; now left).
    apply in_selected in Hin as (block & v & Hblock & Hfirst & _).
    apply first_named_some in Hfirst as [Hv Hname].
    destruct (Hnone block v Hblock Hv Hname).
Qed.

Section Runs.
Context {C E RemoteId : Type}.
Implicit Types (env : Env C E RemoteId) (obj : Obj C).

Lemma content_tables_snoc env name results block :
  content_tables env name (results ++ [block]) =
    match first_named name (variables block) with
    | Some v => content_tables env name results +:+ content_table env name block v
    | None => content_tables env name results
    end.
Proof. unfold content_tables. now rewrite List.fold_left_app. Qed.

(** The table branch renders exactly the entries the JSON branch
    collects. *)
Lemma content_tables_of_selected env name results :
  content_tables env name results =
    String.concat EmptyString (map (entry_table env name) (selected name results)).
Proof.
  induction results as [|block results IH] using List.rev_ind; [reflexivity|].
  rewrite content_tables_snoc, selected_snoc.
  destruct (first_named name (variables block)) as [v|]; [|exact IH].
  rewrite List.map_app. cbn [map]. rewrite concat_empty_snoc, IH.
  reflexivity.
Qed.

Lemma content_tables_empty env name results :
  is_empty (content_tables env name results) = true <-> selected name results = [].
Proof.
  rewrite content_tables_of_selected.
  destruct (selected name results) as [|shown rest] eqn:Hsel.
  - split; reflexivity.
  - split; [|discriminate]. intros Hempty. exfalso.
    assert (In shown (selected name results)) as Hin by (rewrite Hsel; now left).
    apply in_selected in Hin as (block & v & _ & _ & ->).
    cbn [map] in Hempty. rewrite concat_empty_cons in Hempty.
    unfold entry_table, entry, content_table, content_table_title in Hempty.
    cbn [variables] in Hempty. rewrite !append_assoc in Hempty.
    change "Environment: " with (String "E" "nvironment: ") in Hempty.
    rewrite append_cons in Hempty. discriminate.
Qed.


End Runs.


Example debug_in_tables :
  run (environment_variables sample_env 1%Z "Test" false (Some "DEBUG") false)
      {| pager := true; client := tt |} =
    Some ({| pager := false; client := tt |},
          [EchoLargeContent
             ("Environment: test (e1)" +:+ LF +:+ "DEBUG=1=False" +:+ LF +:+ LF +:+ LF
              +:+ "Environment: live (e2)" +:+ LF +:+ "DEBUG=None=True") false],
          Returned tt).
Proof. reflexivity. Qed.

Example missing_variable :
  run (environment_variables sample_env 1%Z "Test" false (Some "PORT") false)
      {| pager := true; client := tt |} =
    Some ({| pager := false; client := tt |},
          [Secho "Could not find any environment variable named PORT." (Some "yellow")],
          Returned tt).
Proof. reflexivity. Qed.

End EnvVarsFacts.

Module RootFacts.
Import Root.

Section Runs.
Context {C E : Type}.
Implicit Types (env : Env C E) (p : Process C) (tr : list Event).

(** The group checks for updates unless the first command-line argument is
    the word "version": with options of the group before it, as in
    [divio -d version], or with no argument at all, the check is made.
    When the group returns, [ctx.obj] holds the client, the zone and the
    pager flag it was given, error reporting was started exactly when
    [--debug] was not given, and the notice of a new version was shown
    exactly when the check was made and found one. *)
Theorem update_check_unless_first_argument_is_version
    env argv debug pager zone sudo p p' tr r :
  run (cli env argv debug pager zone sudo) p = Some (p', tr, r) ->
  (existsb is_check tr = true -> argv !! 1%nat <> Some "version")
  /\ (r = Returned tt ->
      (existsb is_check tr = true <-> argv !! 1%nat <> Some "version")
      /\ (exists client, ctx_obj p' = Ready client zone pager)
      /\ existsb is_sentry tr = negb debug
      /\ debugger_hook p' = (debug || debugger_hook p)
      /\ (In (Secho SUDO_NOTICE "yellow" false) tr <-> sudo = true)
      /\ forall message,
           In (Secho message "yellow" true) tr <->
           exists client info,
             ctx_obj p' = Ready client zone pager
             /\ argv !! 1%nat <> Some "version"
             /\ check_for_updates env client = Returned info
             /\ update_available info = true
             /\ message = update_notice (remote info)).
Proof.
  unfold run, cli, is_version_command, bind, modify, ask, emit, ret, Returned, Raised.
  intros H. destruct sudo, debug; cbn in H.
  all: repeat match type of H with
         | context [get_endpoint ?a ?b] => destruct (get_endpoint a b) eqn:?; cbn in H
         | context [CloudClient ?a ?b ?c ?d] => destruct (CloudClient a b c d) eqn:?; cbn in H
         | context [get_sentry_dsn ?a ?b] => destruct (get_sentry_dsn a b) eqn:?; cbn in H
         | context [?l !! 1%nat] => destruct (l !! 1%nat) eqn:?; cbn in H
         | context [String.eqb ?a "version"] => destruct (String.eqb_spec a "version"); cbn in H
         | context [check_for_updates ?a ?b] => destruct (check_for_updates a b) eqn:?; cbn in H
         | context [update_available ?i] => destruct (update_available i) eqn:?; cbn in H
         end.
  all: simplify_eq; cbn.
  all: (split; [first [discriminate | intros _; congruence]|]);
    try (intros [=]; fail).
  all: intros _.
  all: (split; [split; [first [discriminate | intros _; congruence] | intros Hne; first [reflexivity | exfalso; apply Hne; reflexivity]]|]).
  all: (split; [eexists; reflexivity|]).
  all: (split; [reflexivity|]).
  all: (split; [reflexivity|]).
  all: (split; [split; [intros Hin; repeat destruct Hin as [Hin | Hin]; simplify_eq; try reflexivity; try (exfalso; exact Hin) | intros; try discriminate; auto]|]).
  all: intros message; split;
    [ intros Hin; repeat destruct Hin as [Hin | Hin]; try contradiction; simplify_eq;
      eexists _, _; repeat split; eauto; congruence
    | intros (client & info & Hready & Hnot & Hcheck & Hav & ->);
      simplify_eq; first [congruence | (match goal with Hu : check_for_updates _ _ = inr ?u, Hi : check_for_updates _ _ = inr ?i |- _ => tryif constr_eq u i then fail else (assert (u = i) by congruence; subst) end); auto 10] ].
Qed.

End Runs.

Lemma version_after_an_option_still_checks :
  (existsb is_check
     [CheckForUpdates; Secho (update_notice "9.9") "yellow" true] = true ->
   ["divio"; "-d"; "version"] !! 1%nat <> Some "version")
  /\ (Returned (E := string) tt = Returned tt ->
      (existsb is_check
         [CheckForUpdates; Secho (update_notice "9.9") "yellow" true] = true <->
       ["divio"; "-d"; "version"] !! 1%nat <> Some "version")
      /\ (exists client : unit, Ready tt None false = Ready client None false)
      /\ existsb is_sentry
           [CheckForUpdates; Secho (update_notice "9.9") "yellow" true] = negb true
      /\ true = (true || false)
      /\ (In (Secho SUDO_NOTICE "yellow" false)
            [CheckForUpdates; Secho (update_notice "9.9") "yellow" true] <->
          false = true)
      /\ forall message,
           In (Secho message "yellow" true)
              [CheckForUpdates; Secho (update_notice "9.9") "yellow" true] <->
           exists (client : unit) info,
             Ready tt None false = Ready client None false
             /\ ["divio"; "-d"; "version"] !! 1%nat <> Some "version"
             /\ check_for_updates sample_env client = Returned info
             /\ update_available info = true
             /\ message = update_notice (remote info)).
Proof.
  apply (update_check_unless_first_argument_is_version sample_env
           ["divio"; "-d"; "version"] true false None false
           {| ctx_obj := Unset; debugger_hook := false |}
           {| ctx_obj := Ready tt None false; debugger_hook := true |}
           [CheckForUpdates; Secho (update_notice "9.9") "yellow" true]
           (Returned tt)).
  reflexivity.
Defined.

Example version_first_skips_the_check :
  run (cli sample_env ["divio"; "version"] false true None false)
      {| ctx_obj := Unset; debugger_hook := false |} =
    Some ({| ctx_obj := Ready tt None true; debugger_hook := false |},
          [SentryInit "dsn"], Returned tt).
Proof. reflexivity. Qed.

End RootFacts.
